(** * Remix Contacts: the mutation / revalidation protocol

    A shallow embedding of the route modules of the Remix contacts
    tutorial application:

    - [app/root.tsx]                              (module [Root])
    - [app/routes/contacts.$contactId.tsx]        (module [ContactRoute])
    - [app/routes/contacts.$contactId_.edit.tsx]  (module [EditRoute])
    - [app/routes/contacts.$contactId.destroy.tsx] (module [DestroyRoute])

    The route modules import their store from [app/data], which is
    outside the modules embedded here; modules [Data] and [Store] model
    it from the written specification.  Asynchronous functions are embedded as functions in
    a state-and-exception monad over the store: a promise that fulfills
    is [Fulfilled], one that rejects (a [throw]) is [Rejected]. *)

From Stdlib Require Import Ascii String.
From stdpp Require Import base option list strings gmap pretty.

Local Open Scope string_scope.

(** ** JavaScript strings *)

Module Js.

(** [String.prototype.toLowerCase], on the ASCII range. *)
Definition toLowerCase_char (c : ascii) : ascii :=
  let n := nat_of_ascii c in
  if (65 <=? n)%nat && (n <=? 90)%nat then ascii_of_nat (n + 32) else c.

Fixpoint toLowerCase (s : string) : string :=
  match s with
  | EmptyString => EmptyString
  | String c t => String (toLowerCase_char c) (toLowerCase t)
  end.

(** [String.prototype.startsWith]. *)
Fixpoint startsWith (s p : string) {struct p} : bool :=
  match p, s with
  | EmptyString, _ => true
  | String _ _, EmptyString => false
  | String a p', String b s' => if decide (a = b) then startsWith s' p' else false
  end.

(** [String.prototype.includes]: does [needle] occur somewhere in [s]? *)
Fixpoint includes (s needle : string) : bool :=
  startsWith s needle ||
  match s with
  | EmptyString => false
  | String _ t => includes t needle
  end.

(** Truthiness of a string value: only the empty string is falsy. *)
Definition truthy (s : string) : bool :=
  match s with EmptyString => false | String _ _ => true end.

(** The values the route modules put into the objects they hand to the
    store: booleans and strings. *)
Inductive Value :=
| Boolean (b : bool)
| Text (s : string).

(** Truthiness of a value, as a condition tests it. *)
Definition truthy_value (v : Value) : bool :=
  match v with
  | Boolean b => b
  | Text s => truthy s
  end.

(** [v || d] for a possibly-null string [v]: [d] replaces null and the
    empty string. *)
Definition or_else (v : option string) (d : string) : string :=
  match v with
  | Some s => if truthy s then s else d
  | None => d
  end.

(** [FormData] and [URLSearchParams]: an ordered list of name/value
    entries; [get] returns the first value under a name, or null. *)
Definition Entries := list (string * string).

Fixpoint get (name : string) (es : Entries) : option string :=
  match es with
  | [] => None
  | (k, v) :: rest => if decide (k = name) then Some v else get name rest
  end.

(** [Object.fromEntries]: later entries overwrite earlier ones. *)
Definition fromEntries (es : Entries) : gmap string string :=
  foldl (fun o kv => <[kv.1 := kv.2]> o) ∅ es.

End Js.

(** The propositional reading of "[needle] is a substring of [s]". *)
Definition substring_of (needle s : string) : Prop :=
  exists pre post, s = pre +:+ needle +:+ post.

(** "[needle] is a case-insensitive substring of [s]". *)
Definition ci_substring_of (needle s : string) : Prop :=
  substring_of (Js.toLowerCase needle) (Js.toLowerCase s).

(** ** Promises *)

(** What an asynchronous function can throw.  [ValidationError] is the
    error raised by [invariant]; [NotFoundError] and [StoreError] are the
    store's; [ResponseThrown] is a thrown [Response]. *)
Inductive Thrown :=
| ValidationError (message : string)
| NotFoundError
| StoreError
| ResponseThrown (body : string) (status : nat).

(** A settled promise. *)
Inductive Outcome (A : Type) :=
| Fulfilled (value : A)
| Rejected (reason : Thrown).
Arguments Fulfilled {A} value.
Arguments Rejected {A} reason.

Definition is_fulfilled {A} (r : Outcome A) : bool :=
  match r with Fulfilled _ => true | Rejected _ => false end.

(** ** The contact store *)

Module Data.

(** Modelled from the spec: [ContactRecord] of [app/data], a module the
    routes import and that is not embedded.  Spec section 3: an opaque immutable [id], five
    text fields, the [favorite] flag and the [createdAt] ordering key. *)
Record ContactRecord := {
  id : string;
  createdAt : nat;
  first : string;
  last : string;
  twitter : string;
  avatar : string;
  notes : string;
  favorite : bool;
}.

(** Modelled from the spec: [ContactMutation] of [app/data], the
    "partial Contact" taken by [update].  It is the JavaScript object the
    caller hands over, whole: whatever keys it has, with the values the
    route modules put under them. *)
Abbreviation ContactMutation := (gmap string Js.Value).

(** Modelled from the spec: how [update] reads a partial contact.  A
    text field is supplied when the object holds a string under its
    name.  [favorite] is supplied when the object holds a value under
    that name; the contact's flag is a boolean (spec section 3), and a
    supplied value counts as the boolean every reader of the flag takes
    it for, its truthiness.  No other key of the object is a field that
    [update] changes. *)
Definition text_field (name : string) (u : ContactMutation) : option string :=
  match u !! name with
  | Some (Js.Text s) => Some s
  | _ => None
  end.

Definition m_first (u : ContactMutation) : option string := text_field "first" u.
Definition m_last (u : ContactMutation) : option string := text_field "last" u.
Definition m_twitter (u : ContactMutation) : option string := text_field "twitter" u.
Definition m_avatar (u : ContactMutation) : option string := text_field "avatar" u.
Definition m_notes (u : ContactMutation) : option string := text_field "notes" u.

Definition m_favorite (u : ContactMutation) : option bool :=
  Js.truthy_value <$> u !! "favorite".

(** The empty partial record, [{}]. *)
Definition no_fields : ContactMutation := ∅.

(** The partial record [{ favorite: b }]. *)
Definition favorite_only (b : bool) : ContactMutation :=
  {["favorite" := Js.Boolean b]}.

(** The operations of the store, as they are invoked. *)
Inductive StoreCall :=
| CallList (query : option string)
| CallGet (cid : string)
| CallCreate
| CallUpdate (cid : string) (updates : ContactMutation)
| CallDelete (cid : string).

(** Modelled from the spec: the module-level store of [app/data].
    [contacts] is in insertion order; [clock] generates identifiers and
    creation stamps and only grows, so that identifiers are never
    reused; [writable] is the state of the underlying persistence layer
    (when false, a write fails with [StoreError]); [calls] records every
    operation invoked on the store, oldest first. *)
Record Store := {
  contacts : list ContactRecord;
  clock : nat;
  writable : bool;
  calls : list StoreCall;
}.

Definition invoked (call : StoreCall) (s : Store) : Store :=
  {| contacts := contacts s; clock := clock s; writable := writable s;
     calls := calls s ++ [call] |}.

Definition with_contacts (cs : list ContactRecord) (s : Store) : Store :=
  {| contacts := cs; clock := clock s; writable := writable s; calls := calls s |}.

(** The record stored under an identifier, if any. *)
Definition find (cid : string) (cs : list ContactRecord) : option ContactRecord :=
  List.find (fun c => bool_decide (id c = cid)) cs.

(** The spec's words for [update]: every supplied field of [u] is the
    field of [c'], every other field of [c'] is the field of [c], and
    [id] and [createdAt] are those of [c] whatever [u] supplies. *)
Definition field_level_merge (c : ContactRecord) (u : ContactMutation)
    (c' : ContactRecord) : Prop :=
  id c' = id c /\ createdAt c' = createdAt c
  /\ first c' = match m_first u with Some v => v | None => first c end
  /\ last c' = match m_last u with Some v => v | None => last c end
  /\ twitter c' = match m_twitter u with Some v => v | None => twitter c end
  /\ avatar c' = match m_avatar u with Some v => v | None => avatar c end
  /\ notes c' = match m_notes u with Some v => v | None => notes c end
  /\ favorite c' = match m_favorite u with Some v => v | None => favorite c end.

(** Modelled from the spec: the search predicate of [list], absent with
    [app/data]: [query] is a case-insensitive substring of [first] or of
    [last].  Case is folded on the ASCII range. *)
Definition matches (query : string) (c : ContactRecord) : bool :=
  Js.includes (Js.toLowerCase (first c)) (Js.toLowerCase query)
  || Js.includes (Js.toLowerCase (last c)) (Js.toLowerCase query).

(** Modelled from the spec: the merge done by [update], absent with
    [app/data].  A supplied field replaces the record's, an unsupplied
    one is kept; [id] and [createdAt] are never taken from the partial
    record. *)
Definition merge (c : ContactRecord) (u : ContactMutation) : ContactRecord :=
  {| id := id c;
     createdAt := createdAt c;
     first := default (first c) (m_first u);
     last := default (last c) (m_last u);
     twitter := default (twitter c) (m_twitter u);
     avatar := default (avatar c) (m_avatar u);
     notes := default (notes c) (m_notes u);
     favorite := default (favorite c) (m_favorite u) |}.

(** Modelled from the spec: the record made by [create], absent with
    [app/data]: a fresh identifier, every text field empty, not a
    favorite. *)
Definition empty_contact (n : nat) : ContactRecord :=
  {| id := pretty n; createdAt := n; first := ""; last := ""; twitter := "";
     avatar := ""; notes := ""; favorite := false |}.

End Data.

Import Data.

(** An asynchronous function: run against the store, it settles and
    leaves a store behind. *)
Definition Async (A : Type) : Type := Store -> Outcome A * Store.

Definition resolve {A} (a : A) : Async A := fun s => (Fulfilled a, s).
Definition throw {A} (e : Thrown) : Async A := fun s => (Rejected e, s).

(** [await]: continue with the value of a fulfilled promise, propagate a
    rejection. *)
Definition await {A B} (m : Async A) (k : A -> Async B) : Async B :=
  fun s =>
    match m s with
    | (Fulfilled a, s') => k a s'
    | (Rejected e, s') => (Rejected e, s')
    end.

Notation "'let!' x ':=' m 'in' k" := (await m (fun x => k))
  (at level 10, x pattern, m at level 100, k at level 200).

Module Store.

(** Modelled from the spec: [getContacts] of [app/data] ([list]).  A
    null query returns every contact; a query returns the contacts
    whose [first] or [last] contains it, case-insensitively; the
    result keeps insertion order. *)
Definition getContacts (query : option string) : Async (list ContactRecord) :=
  fun s =>
    let s' := invoked (CallList query) s in
    match query with
    | None => (Fulfilled (contacts s), s')
    | Some q => (Fulfilled (filter (fun c => matches q c) (contacts s)), s')
    end.

(** Modelled from the spec: [getContact] of [app/data] ([get]).  It
    fails with [NotFoundError] when the id does not exist.  Its callers
    test the value they await for null, so the result type admits null
    ([None]). *)
Definition getContact (cid : string) : Async (option ContactRecord) :=
  fun s =>
    let s' := invoked (CallGet cid) s in
    match find cid (contacts s) with
    | Some c => (Fulfilled (Some c), s')
    | None => (Rejected NotFoundError, s')
    end.

(** Modelled from the spec: [createEmptyContact] of [app/data]
    ([create]): a freshly generated contact with every text field
    empty and [favorite] false, appended to the store. *)
Definition createEmptyContact : Async ContactRecord :=
  fun s =>
    let s' := invoked CallCreate s in
    if writable s then
      let c := empty_contact (clock s) in
      (Fulfilled c,
       {| contacts := contacts s ++ [c]; clock := S (clock s);
          writable := writable s; calls := calls s' |})
    else (Rejected StoreError, s').

(** Modelled from the spec: [updateContact] of [app/data] ([update]):
    fails with [NotFoundError] when the id does not exist, otherwise
    merges the supplied fields into the record, in place, and returns
    the merged record. *)
Definition updateContact (cid : string) (updates : ContactMutation)
  : Async ContactRecord :=
  fun s =>
    let s' := invoked (CallUpdate cid updates) s in
    match find cid (contacts s) with
    | None => (Rejected NotFoundError, s')
    | Some c =>
        if writable s then
          (Fulfilled (merge c updates),
           with_contacts
             ((fun x => if decide (id x = cid) then merge x updates else x)
                <$> contacts s) s')
        else (Rejected StoreError, s')
    end.

(** Modelled from the spec: [deleteContact] of [app/data] ([delete]):
    fails with [NotFoundError] when the id does not exist, otherwise
    removes the record from the store. *)
Definition deleteContact (cid : string) : Async unit :=
  fun s =>
    let s' := invoked (CallDelete cid) s in
    match find cid (contacts s) with
    | None => (Rejected NotFoundError, s')
    | Some _ =>
        if writable s then
          (Fulfilled tt,
           with_contacts
             (filter (fun x => id x <> cid) (contacts s)) s')
        else (Rejected StoreError, s')
    end.

End Store.

Import Store.

(** ** Requests, responses and the helpers of the route modules *)

Record URL := {
  pathname : string;
  searchParams : Js.Entries;
}.

(** A request: its URL and, for a form submission, the submitted form
    entries ([await request.formData()]). *)
Record Request := {
  url : URL;
  formData : Js.Entries;
}.

(** The dynamic segments of the matched route; [contactId] is undefined
    ([None]) when the segment is missing. *)
Record Params := {
  contactId : option string;
}.

(** What an action returns: a redirect or the data it resolved to. *)
Inductive Response :=
| Redirect (location : string)
| JsonContact (contact : ContactRecord).

Definition redirect (location : string) : Response := Redirect location.

(** [invariant(condition, message)] of tiny-invariant: throws when the
    condition is falsy (undefined or the empty string), and otherwise
    narrows it to the string it is. *)
Definition invariant (condition : option string) (message : string) : Async string :=
  match condition with
  | Some v => if Js.truthy v then resolve v else throw (ValidationError message)
  | None => throw (ValidationError message)
  end.

(** ** app/root.tsx *)

Module Root.

Record LoaderData := {
  contacts : list ContactRecord;
  q : option string;
}.

Definition action : Async Response :=
  let! contact := createEmptyContact in
  resolve (redirect ("/contacts/" +:+ id contact +:+ "/edit")).

Definition loader (request : Request) : Async LoaderData :=
  let q := Js.get "q" (searchParams (url request)) in
  let! contacts := getContacts q in
  resolve {| contacts := contacts; q := q |}.

End Root.

(** ** app/routes/contacts.$contactId.tsx *)

Module ContactRoute.

Record LoaderData := {
  contact : ContactRecord;
}.

Definition action (params : Params) (request : Request) : Async Response :=
  let! contactId := invariant (contactId params) "Missing contactId param" in
  let formData := formData request in
  let! updated :=
    updateContact contactId
      (favorite_only (bool_decide (Js.get "favorite" formData = Some "true"))) in
  resolve (JsonContact updated).

Definition loader (params : Params) : Async LoaderData :=
  let! contactId := invariant (contactId params) "Missing contactId param" in
  let! contact := getContact contactId in
  match contact with
  | None => throw (ResponseThrown "Not Found" 404)
  | Some contact => resolve {| contact := contact |}
  end.

End ContactRoute.

(** ** app/routes/contacts.$contactId_.edit.tsx *)

Module EditRoute.

Definition loader (params : Params) : Async ContactRoute.LoaderData :=
  let! contactId := invariant (contactId params) "Missing contactId param" in
  let! contact := getContact contactId in
  match contact with
  | None => throw (ResponseThrown "Not Found" 404)
  | Some contact => resolve {| ContactRoute.contact := contact |}
  end.

(** The object built by [Object.fromEntries(formData)], as the value
    handed to [updateContact]: the same keys, each with the submitted
    string as its value.  Nothing is added and nothing is left out. *)
Definition as_mutation (updates : gmap string string) : ContactMutation :=
  Js.Text <$> updates.

Definition action (params : Params) (request : Request) : Async Response :=
  let! contactId := invariant (contactId params) "Missing contactId param" in
  let formData := formData request in
  let updates := Js.fromEntries formData in
  let! _ := updateContact contactId (as_mutation updates) in
  resolve (redirect ("/contacts/" +:+ contactId)).

End EditRoute.

(** ** app/routes/contacts.$contactId.destroy.tsx *)

Module DestroyRoute.

Definition action (params : Params) : Async Response :=
  let! contactId := invariant (contactId params) "Missing contactId param" in
  let! _ := deleteContact contactId in
  resolve (redirect "/").

End DestroyRoute.

(** ** The [Favorite] component (contacts.$contactId.tsx) *)

(** Modelled from the spec: the fetcher returned by [useFetcher], a
    value of the framework.  Spec section 4.3 and the comment above
    [Favorite]: while a form submission is in flight ([submitting], then
    [loading]) the fetcher carries the submitted form data; once the
    lifecycle is over it is [idle] and its [formData] is undefined. *)
Inductive Fetcher :=
| Idle
| Submitting (submitted : Js.Entries)
| Loading (submitted : Js.Entries).

Definition fetcher_formData (fetcher : Fetcher) : option Js.Entries :=
  match fetcher with
  | Idle => None
  | Submitting fd | Loading fd => Some fd
  end.

(** The button rendered by [Favorite]: the value it displays and what
    its form submits when clicked. *)
Record FavoriteButton := {
  displayed : bool;
  aria_label : string;
  name : string;
  value : string;
}.

Definition Favorite (fetcher : Fetcher) (contact_favorite : bool) : FavoriteButton :=
  let favorite :=
    match fetcher_formData fetcher with
    | Some fd => bool_decide (Js.get "favorite" fd = Some "true")
    | None => contact_favorite
    end in
  {| displayed := favorite;
     aria_label := if favorite then "Remove from favorites" else "Add to favorites";
     name := "favorite";
     value := if favorite then "false" else "true" |}.

(** Clicking the button submits its form: one entry, the button's
    name and value. *)
Definition click (b : FavoriteButton) : Js.Entries := [(name b, value b)].

(** ** The mutation lifecycle *)

Inductive Phase := Submit | Settle | Revalidate.

Section Coordinator.

Context {A V : Type}.

(** The mutation (a route action applied to its request) and the
    revalidation (the loader of a displayed route). *)
Variable mutation : Async A.
Variable revalidation : Async V.

(** Modelled from the spec: the lifecycle that the framework gives one
    mutation (spec section 4.2 and the comment above the favorite
    action).  The action of a submitted request runs until its promise
    settles; the loader then runs, whatever the promise settled to, and
    its data is displayed. *)
Inductive Lifecycle :=
| Submitted (s : Store)
| Settled (outcome : Outcome A) (s : Store)
| Revalidated (outcome : Outcome A) (view : Outcome V) (s : Store).

Definition phase (l : Lifecycle) : Phase :=
  match l with
  | Submitted _ => Submit
  | Settled _ _ => Settle
  | Revalidated _ _ _ => Revalidate
  end.

Definition step (l : Lifecycle) : option Lifecycle :=
  match l with
  | Submitted s => let (outcome, s') := mutation s in Some (Settled outcome s')
  | Settled outcome s => let (view, s') := revalidation s in Some (Revalidated outcome view s')
  | Revalidated _ _ _ => None
  end.

(** Run a lifecycle to its end, recording the phases it goes through. *)
Fixpoint run (fuel : nat) (l : Lifecycle) : list Phase * Lifecycle :=
  match fuel with
  | 0 => ([phase l], l)
  | S fuel' =>
      match step l with
      | None => ([phase l], l)
      | Some l' => let (trace, final) := run fuel' l' in (phase l :: trace, final)
      end
  end.

Definition request_state (l : Lifecycle) (payload : Js.Entries) : Fetcher :=
  match l with
  | Submitted _ => Submitting payload
  | Settled _ _ => Loading payload
  | Revalidated _ _ _ => Idle
  end.

End Coordinator.

Arguments Submitted {A V} s.
Arguments Settled {A V} outcome s.
Arguments Revalidated {A V} outcome view s.

(** The mutations of the application and the routes whose data is
    displayed. *)
Inductive Mutation :=
| Create
| ToggleFavorite (params : Params) (request : Request)
| Edit (params : Params) (request : Request)
| Destroy (params : Params).

Definition perform (m : Mutation) : Async Response :=
  match m with
  | Create => Root.action
  | ToggleFavorite params request => ContactRoute.action params request
  | Edit params request => EditRoute.action params request
  | Destroy params => DestroyRoute.action params
  end.

Inductive Display :=
| Sidebar (request : Request)
| ContactPage (params : Params)
| EditPage (params : Params).

Inductive View :=
| SidebarData (data : Root.LoaderData)
| ContactData (data : ContactRoute.LoaderData).

Definition refetch (d : Display) : Async View :=
  match d with
  | Sidebar request => let! data := Root.loader request in resolve (SidebarData data)
  | ContactPage params => let! data := ContactRoute.loader params in resolve (ContactData data)
  | EditPage params => let! data := EditRoute.loader params in resolve (ContactData data)
  end.

(** What [Favorite] shows over the lifecycle of one click, given the
    contact the loader returned before the click: a render while
    submitting, a render while loading, and a final render with the
    contact the revalidating loader returns ([None] when it throws). *)
Definition favorite_shown (payload : Js.Entries) (before : ContactRecord)
    (l : Lifecycle (A := Response) (V := ContactRoute.LoaderData)) : option bool :=
  match l with
  | Revalidated _ (Fulfilled data) _ =>
      Some (displayed (Favorite (request_state l payload) (favorite (ContactRoute.contact data))))
  | Revalidated _ (Rejected _) _ => None
  | _ => Some (displayed (Favorite (request_state l payload) (favorite before)))
  end.

(** ** The search form of [App] (root.tsx) *)

(** Modelled from the spec: the navigation history driven by the search
    form (spec section 6: [push(url)], [replace(url)]), a collaborator
    outside the program.  The entries behind the current one (most
    recent first), the current entry, and the entries ahead of it. *)
Record History := {
  back : list URL;
  current : URL;
  forward : list URL;
}.

Definition push (u : URL) (h : History) : History :=
  {| back := current h :: back h; current := u; forward := [] |}.

Definition replace (u : URL) (h : History) : History :=
  {| back := back h; current := u; forward := forward h |}.

Inductive Navigation := Pushed | Replaced.

Record SubmitOptions := {
  opt_replace : bool;
}.

(** [submit(form, options)] for the search form, a GET form on the root
    route holding the one input named [q]: it navigates to the root with
    the input's text as the [q] search parameter, replacing the current
    history entry when [options.replace] is set and pushing otherwise. *)
Definition search_url (text : string) : URL :=
  {| pathname := "/"; searchParams := [("q", text)] |}.

Definition submit (text : string) (options : SubmitOptions) (h : History)
  : Navigation * History :=
  let target := search_url text in
  if opt_replace options then (Replaced, replace target h) else (Pushed, push target h).

(** The [q] that [App] gets from [useLoaderData]: what the root loader
    read from the URL of the current entry. *)
Definition loaded_q (h : History) : option string :=
  Js.get "q" (searchParams (current h)).

(** The [onChange] handler of the search form. *)
Definition onChange (q : option string) (text : string) (h : History)
  : Navigation * History :=
  let isFirstSearch := bool_decide (q = None) in
  submit text {| opt_replace := negb isFirstSearch |} h.

(** A session of edits of the search input, each navigation completing
    (and [App] re-rendering with the loader's [q]) before the next. *)
Fixpoint typing (texts : list string) (h : History) : list Navigation * History :=
  match texts with
  | [] => ([], h)
  | text :: rest =>
      let (nav, h') := onChange (loaded_q h) text h in
      let (navs, h'') := typing rest h' in
      (nav :: navs, h'')
  end.

(** ** The search input and its resynchronisation effect (root.tsx) *)

Inductive Element :=
| HTMLInputElement (value : string)
| HTMLElement.

(** The document, by element id. *)
Record AppDom := {
  document : gmap string Element;
  effect_deps : option (option string);
}.

(** The body of the effect. *)
Definition resync (q : option string) (doc : gmap string Element) : gmap string Element :=
  match doc !! "q" with
  | Some (HTMLInputElement _) => <["q" := HTMLInputElement (Js.or_else q "")]> doc
  | _ => doc
  end.

(** Rendering [App]: the input [#q] is mounted with its [defaultValue]
    when it is not in the document yet; an input already mounted is
    uncontrolled and keeps the text it holds. *)
Definition render_input (q : option string) (doc : gmap string Element) : gmap string Element :=
  match doc !! "q" with
  | Some _ => doc
  | None => <["q" := HTMLInputElement (Js.or_else q "")]> doc
  end.

(** [useEffect(effect, [q])]: after a render, the effect runs on mount
    and whenever [q] differs from its value at the previous render. *)
Definition App_render (q : option string) (dom : AppDom) : AppDom :=
  let doc := render_input q (document dom) in
  let doc' := if decide (effect_deps dom = Some q) then doc else resync q doc in
  {| document := doc'; effect_deps := Some q |}.

(** The user edits the search input. *)
Definition user_types (text : string) (dom : AppDom) : AppDom :=
  {| document :=
       match document dom !! "q" with
       | Some (HTMLInputElement _) => <["q" := HTMLInputElement text]> (document dom)
       | _ => document dom
       end;
     effect_deps := effect_deps dom |}.

Definition input_text (dom : AppDom) : option string :=
  match document dom !! "q" with
  | Some (HTMLInputElement v) => Some v
  | _ => None
  end.

(** Back and forward navigation. *)
Definition go_back (h : History) : History :=
  match back h with
  | [] => h
  | u :: rest => {| back := rest; current := u; forward := current h :: forward h |}
  end.

Definition go_forward (h : History) : History :=
  match forward h with
  | [] => h
  | u :: rest => {| back := current h :: back h; current := u; forward := rest |}
  end.

(** ** What revalidation is to display *)

(** The authoritative state of a displayed route, in the words of the
    spec (sections 4.1 and 4.2): what the store's contacts [cs] give for
    the resource the route displays.  The sidebar displays the listing
    for the request's query; a contact or edit page displays the contact
    stored under the route's identifier, and has nothing to display
    (the reason why) when the identifier is missing or unknown. *)
Definition authoritative (d : Display) (cs : list ContactRecord) : Outcome View :=
  match d with
  | Sidebar request =>
      let q := Js.get "q" (searchParams (url request)) in
      Fulfilled (SidebarData
        {| Root.contacts :=
             match q with
             | None => cs
             | Some text => filter (fun c => matches text c) cs
             end;
           Root.q := q |})
  | ContactPage params | EditPage params =>
      match contactId params with
      | None | Some "" => Rejected (ValidationError "Missing contactId param")
      | Some cid =>
          match find cid cs with
          | Some c => Fulfilled (ContactData {| ContactRoute.contact := c |})
          | None => Rejected NotFoundError
          end
      end
  end.

(** The contacts a mutation is to leave in the store when it succeeds,
    in the words of the spec (sections 3 and 4.1): create appends an
    empty contact, the favorite toggle and the edit merge their fields
    into the target, destroy removes the target. *)
Definition applied (m : Mutation) (s : Store) : list ContactRecord :=
  match m with
  | Create => contacts s ++ [empty_contact (clock s)]
  | ToggleFavorite params request =>
      (fun x => if decide (Some (id x) = contactId params)
                then merge x (favorite_only
                       (bool_decide (Js.get "favorite" (formData request) = Some "true")))
                else x) <$> contacts s
  | Edit params request =>
      (fun x => if decide (Some (id x) = contactId params)
                then merge x (Js.Text <$> Js.fromEntries (formData request))
                else x) <$> contacts s
  | Destroy params => filter (fun x => Some (id x) <> contactId params) (contacts s)
  end.

(** ** Pending UI of [App] (root.tsx) *)

(** What [useNavigation] returns: the state of the pending page
    navigation and, while one is pending, the location it goes to. *)
Inductive NavigationState := NavIdle | NavLoading | NavSubmitting.

Record PendingNavigation := {
  nav_state : NavigationState;
  nav_location : option URL;
}.

(** [URLSearchParams.prototype.has]. *)
Definition has_param (name : string) (es : Js.Entries) : bool :=
  match Js.get name es with Some _ => true | None => false end.

(** [navigation.location && new URLSearchParams(...).has("q")], as the
    conditions that test it see it: an undefined location is falsy. *)
Definition searching (navigation : PendingNavigation) : bool :=
  match nav_location navigation with
  | Some location => has_param "q" (searchParams location)
  | None => false
  end.

(** The three places of [App] that show a pending navigation: the class
    of the search input, the [hidden] attribute of the spinner and the
    class of the detail pane. *)
Record PendingUi := {
  input_className : string;
  spinner_hidden : bool;
  detail_className : string;
}.

Definition App_pending (navigation : PendingNavigation) : PendingUi :=
  let searching := searching navigation in
  {| input_className := if searching then "loading" else "";
     spinner_hidden := negb searching;
     detail_className :=
       if match nav_state navigation with NavLoading => true | _ => false end
          && negb searching
       then "loading" else "" |}.

(** The navigation that is pending while the search form's submission
    is being loaded: a GET navigation to the submitted URL. *)
Definition search_pending (text : string) : PendingNavigation :=
  {| nav_state := NavLoading; nav_location := Some (search_url text) |}.

(** ** The sidebar of [App] (root.tsx) *)

(** [contact.first || contact.last ? <>{first} {last}</> : <i>No Name</i>] *)
Inductive NameLabel :=
| Named (first_name last_name : string)
| NoName.

Definition name_label (contact : ContactRecord) : NameLabel :=
  if Js.truthy (first contact) || Js.truthy (last contact)
  then Named (first contact) (last contact)
  else NoName.

Record SidebarItem := {
  item_key : string;
  item_to : string;
  item_label : NameLabel;
  item_star : bool;
}.

Definition sidebar_item (contact : ContactRecord) : SidebarItem :=
  {| item_key := id contact;
     item_to := "contacts/" +:+ id contact;
     item_label := name_label contact;
     item_star := favorite contact |}.

Inductive SidebarNav :=
| ContactList (items : list SidebarItem)
| NoContacts.

(** [contacts.length ? <ul>...</ul> : <p><i>No contacts</i></p>] *)
Definition App_nav (data : Root.LoaderData) : SidebarNav :=
  match length (Root.contacts data) with
  | 0 => NoContacts
  | S _ => ContactList (sidebar_item <$> Root.contacts data)
  end.

(** ** The [Contact] component (contacts.$contactId.tsx) *)

Record ContactView := {
  img_alt : string;
  img_src : string;
  heading : NameLabel;
  star : FavoriteButton;
  twitter_link : option (string * string);
  notes_text : option string;
}.

(** [fetcher] is the fetcher of the [Favorite] the component renders. *)
Definition Contact (fetcher : Fetcher) (data : ContactRoute.LoaderData) : ContactView :=
  let contact := ContactRoute.contact data in
  {| img_alt := first contact +:+ " " +:+ last contact +:+ " avatar";
     img_src := avatar contact;
     heading := name_label contact;
     star := Favorite fetcher (favorite contact);
     twitter_link :=
       if Js.truthy (twitter contact)
       then Some ("https://twitter.com/" +:+ twitter contact, twitter contact)
       else None;
     notes_text := if Js.truthy (notes contact) then Some (notes contact) else None |}.

(** The [onSubmit] handler of the delete form: the submission is
    prevented unless [confirm] answers true. *)
Record SubmitEvent := {
  defaultPrevented : bool;
}.

Definition onSubmit (confirm : string -> bool) (event : SubmitEvent) : SubmitEvent :=
  let response := confirm "Please confirm you want to delete this record." in
  if negb response then {| defaultPrevented := true |} else event.

(** Clicking Delete: the handler runs on the submit event, and the form
    posts to the destroy route unless the event was prevented. *)
Definition click_delete (confirm : string -> bool) (params : Params)
  : Async (option Response) :=
  let event := onSubmit confirm {| defaultPrevented := false |} in
  if defaultPrevented event then resolve None
  else let! response := DestroyRoute.action params in resolve (Some response).

(** ** The [EditContact] component (contacts.$contactId_.edit.tsx) *)

(** A named form control and the text it is mounted with. *)
Record FormField := {
  field_name : string;
  field_defaultValue : string;
}.

(** The controls of the edit form, in document order. *)
Definition EditContact (data : ContactRoute.LoaderData) : list FormField :=
  let contact := ContactRoute.contact data in
  [ {| field_name := "first"; field_defaultValue := first contact |};
    {| field_name := "last"; field_defaultValue := last contact |};
    {| field_name := "twitter"; field_defaultValue := twitter contact |};
    {| field_name := "avatar"; field_defaultValue := avatar contact |};
    {| field_name := "notes"; field_defaultValue := notes contact |} ].

(** The form data of a submission: each control contributes its name
    and the text it holds, the text typed into it ([edits], by control
    name) or else its default. *)
Definition form_entries (edits : gmap string string) (form : list FormField) : Js.Entries :=
  (fun f => (field_name f, default (field_defaultValue f) (edits !! field_name f))) <$> form.

(** One edit of the search input, start to end: the user types, the
    handler navigates, and [App] renders with the loader's [q]. *)
Definition keystroke (text : string) (st : History * AppDom) : History * AppDom :=
  let (h, dom) := st in
  let dom1 := user_types text dom in
  let (_, h') := onChange (loaded_q h) text h in
  (h', App_render (loaded_q h') dom1).

(** ** A seeded store *)

Definition alice : ContactRecord :=
  {| id := "0"; createdAt := 0; first := "Alice"; last := "Smith"; twitter := "@alice";
     avatar := ""; notes := "met at the conference"; favorite := false |}.

Definition bob : ContactRecord :=
  {| id := "1"; createdAt := 1; first := "Bob"; last := "Jones"; twitter := "";
     avatar := ""; notes := ""; favorite := true |}.

Definition seeded : Store :=
  {| contacts := [alice; bob]; clock := 2; writable := true; calls := [] |}.

(** The same store with its persistence layer refusing writes. *)
Definition read_only : Store :=
  {| contacts := [alice; bob]; clock := 2; writable := false; calls := [] |}.

Definition root_url : URL := {| pathname := "/"; searchParams := [] |}.

Definition fresh_history : History :=
  {| back := []; current := root_url; forward := [] |}.

(** * Properties *)

(** ** Strings *)

Lemma startsWith_spec (s p : string) :
  Js.startsWith s p = true <-> exists post, s = p +:+ post.
Proof.
  revert s. induction p as [|a p IH]; intros s; simpl.
  - split; [intros _; by exists s | done].
  - destruct s as [|b s].
    + split; [done | intros [post H]; discriminate H].
    + destruct (decide (a = b)) as [->|Hne].
      * rewrite IH. split; intros [post H]; exists post.
        -- by rewrite H.
        -- by injection H.
      * split; [done | intros [post H]; injection H; congruence].
Qed.

Lemma includes_spec (s needle : string) :
  Js.includes s needle = true <-> substring_of needle s.
Proof.
  unfold substring_of. induction s as [|b s IH]; simpl.
  - rewrite orb_false_r, startsWith_spec. split.
    + intros [post H]. by exists "", post.
    + intros (pre & post & H). destruct pre as [|x pre]; [|discriminate H].
      by exists post.
  - rewrite orb_true_iff, startsWith_spec, IH. split.
    + intros [[post H] | (pre & post & H)].
      * by exists "", post.
      * exists (String b pre), post. simpl. by rewrite H.
    + intros (pre & post & H). destruct pre as [|x pre]; simpl in H.
      * left. by exists post.
      * right. exists pre, post. by injection H.
Qed.

Lemma matches_spec (q : string) (c : ContactRecord) :
  matches q c = true <-> ci_substring_of q (first c) \/ ci_substring_of q (last c).
Proof.
  unfold matches, ci_substring_of. by rewrite orb_true_iff, !includes_spec.
Qed.

(** ** Looking a contact up *)

Lemma find_Some (cid : string) (cs : list ContactRecord) (c : ContactRecord) :
  find cid cs = Some c -> id c = cid /\ c ∈ cs.
Proof.
  unfold find. intros H. apply find_some in H as [Hin Hid].
  apply bool_decide_eq_true in Hid. by rewrite list_elem_of_In.
Qed.

Lemma find_None (cid : string) (cs : list ContactRecord) :
  find cid cs = None <-> forall c, c ∈ cs -> id c <> cid.
Proof.
  unfold find. induction cs as [|x cs IH]; simpl.
  - split; [intros _ c Hc; by apply elem_of_nil in Hc | done].
  - case_bool_decide as Hx.
    + split; [done | intros H; exfalso; apply (H x); [apply elem_of_cons; by left | done]].
    + rewrite IH. split.
      * intros H c Hc. apply elem_of_cons in Hc as [->|Hc]; [done | by apply H].
      * intros H c Hc. apply H. apply elem_of_cons. by right.
Qed.

Lemma find_updated (cid cid' : string) (u : ContactMutation) (cs : list ContactRecord) :
  find cid' ((fun x => if decide (id x = cid) then merge x u else x) <$> cs)
  = (fun x => if decide (id x = cid) then merge x u else x) <$> find cid' cs.
Proof.
  unfold find. induction cs as [|x cs IH]; simpl; [done|].
  destruct (decide (id x = cid)) as [Hx|Hx]; simpl;
    case_bool_decide; simpl; try done;
    by destruct (decide (id x = cid)).
Qed.

Lemma find_deleted (cid : string) (cs : list ContactRecord) :
  find cid (filter (fun x => id x <> cid) cs) = None.
Proof.
  apply find_None. intros c Hc. by apply list_elem_of_filter in Hc as [Hne _].
Qed.

(** ** Listing and searching *)

Example search_jon_finds_bob :
  fst (getContacts (Some "JON") seeded) = Fulfilled [bob].
Proof. reflexivity. Qed.

Example search_through_loader :
  fst (Root.loader {| url := {| pathname := "/"; searchParams := [("q", "s")] |};
                      formData := [] |} seeded)
  = Fulfilled {| Root.contacts := [alice; bob]; Root.q := Some "s" |}.
Proof. reflexivity. Qed.

(** C4. [list] with a null query returns all contacts; with a query [q]
    it returns exactly the contacts of the store of which [q] is a
    case-insensitive substring of [first] or [last]; the result keeps the
    store's insertion order (it is a subsequence of the stored list) and
    listing leaves the contacts as they are.  The root loader lists with
    the [q] search parameter of the request, null when it is absent. *)
Theorem list_filters_by_substring (s : Store) :
  fst (getContacts None s) = Fulfilled (contacts s)
  /\ (forall q : string, exists l,
        fst (getContacts (Some q) s) = Fulfilled l
        /\ (forall c, c ∈ l <->
              c ∈ contacts s /\ (ci_substring_of q (first c) \/ ci_substring_of q (last c)))
        /\ sublist l (contacts s))
  /\ (forall query, contacts (snd (getContacts query s)) = contacts s)
  /\ (forall request, exists l,
        fst (Root.loader request s)
        = Fulfilled {| Root.contacts := l;
                       Root.q := Js.get "q" (searchParams (url request)) |}
        /\ fst (getContacts (Js.get "q" (searchParams (url request))) s) = Fulfilled l).
Proof.
  repeat split.
  - intros q. exists (filter (fun c => matches q c) (contacts s)).
    split; [done|]. split.
    + intros c. rewrite list_elem_of_filter, Is_true_true, matches_spec. tauto.
    + apply sublist_filter.
  - by intros [q|].
  - intros request. unfold Root.loader, await.
    destruct (Js.get "q" (searchParams (url request))) as [q|]; simpl; eauto.
Qed.

(** ** Awaiting *)

Lemma await_fulfilled {A B} (m : Async A) (k : A -> Async B) (s s' : Store) (a : A) :
  m s = (Fulfilled a, s') -> await m k s = k a s'.
Proof. intros H. unfold await. by rewrite H. Qed.

Lemma await_rejected {A B} (m : Async A) (k : A -> Async B) (s s' : Store) (e : Thrown) :
  m s = (Rejected e, s') -> await m k s = (Rejected e, s').
Proof. intros H. unfold await. by rewrite H. Qed.

(** ** Updating *)

Lemma invariant_present (cid message : string) (s : Store) :
  cid <> "" -> invariant (Some cid) message s = (Fulfilled cid, s).
Proof. intros H. destruct cid; [done | reflexivity]. Qed.

(** Step over an [await] whose promise is known to fulfill, or to
    reject. *)
Tactic Notation "awaited" uconstr(H) := rewrite (await_fulfilled _ _ _ _ _ H).
Tactic Notation "thrown" uconstr(H) := rewrite (await_rejected _ _ _ _ _ H).
Ltac past_invariant Hne :=
  rewrite (await_fulfilled _ _ _ _ _ (invariant_present _ _ _ Hne)).

Lemma merge_is_field_level (c : ContactRecord) (u : ContactMutation) :
  field_level_merge c u (merge c u).
Proof.
  unfold field_level_merge, merge; simpl.
  by destruct (m_first u), (m_last u), (m_twitter u), (m_avatar u), (m_notes u),
    (m_favorite u).
Qed.

Lemma merge_no_fields (c : ContactRecord) : merge c no_fields = c.
Proof.
  unfold merge, no_fields, m_first, m_last, m_twitter, m_avatar, m_notes, m_favorite,
    text_field.
  rewrite !lookup_empty. by destruct c.
Qed.

Lemma merge_favorite_only (c : ContactRecord) (b : bool) :
  merge c (favorite_only b)
  = {| id := id c; createdAt := createdAt c; first := first c; last := last c;
       twitter := twitter c; avatar := avatar c; notes := notes c; favorite := b |}.
Proof.
  unfold merge, favorite_only, m_first, m_last, m_twitter, m_avatar, m_notes, m_favorite,
    text_field.
  rewrite lookup_singleton_eq.
  by rewrite !lookup_singleton_ne by done.
Qed.

Lemma text_field_as_mutation (name : string) (updates : gmap string string) :
  text_field name (EditRoute.as_mutation updates) = updates !! name.
Proof.
  unfold text_field, EditRoute.as_mutation. rewrite lookup_fmap.
  by destruct (updates !! name).
Qed.

Lemma m_favorite_as_mutation (updates : gmap string string) :
  m_favorite (EditRoute.as_mutation updates) = Js.truthy <$> updates !! "favorite".
Proof.
  unfold m_favorite, EditRoute.as_mutation. rewrite lookup_fmap.
  by destruct (updates !! "favorite").
Qed.

Lemma updateContact_found (s : Store) (cid : string) (u : ContactMutation)
    (c : ContactRecord) :
  find cid (contacts s) = Some c -> writable s = true ->
  updateContact cid u s
  = (Fulfilled (merge c u),
     with_contacts ((fun x => if decide (id x = cid) then merge x u else x) <$> contacts s)
       (invoked (CallUpdate cid u) s)).
Proof. intros Hc Hw. unfold updateContact. by rewrite Hc, Hw. Qed.

Lemma getContact_after_update (s : Store) (cid : string) (u : ContactMutation)
    (c : ContactRecord) :
  find cid (contacts s) = Some c ->
  fst (getContact cid
         (with_contacts ((fun x => if decide (id x = cid) then merge x u else x) <$> contacts s)
            (invoked (CallUpdate cid u) s)))
  = Fulfilled (Some (merge c u)).
Proof.
  intros Hc. unfold getContact; simpl. rewrite find_updated, Hc; simpl.
  apply find_Some in Hc as [Hid _]. by destruct (decide (id c = cid)).
Qed.

Example star_alice :
  fst (await (updateContact "0" (favorite_only true)) (fun _ => getContact "0") seeded)
  = Fulfilled (Some {| id := "0"; createdAt := 0; first := "Alice"; last := "Smith";
                       twitter := "@alice"; avatar := "";
                       notes := "met at the conference"; favorite := true |}).
Proof. reflexivity. Qed.

Example edit_cannot_rename_id :
  fst (await (EditRoute.action {| contactId := Some "1" |}
                {| url := root_url;
                   formData := [("first", "Rob"); ("id", "7"); ("first", "Robert")] |})
             (fun _ => getContacts None) seeded)
  = Fulfilled [alice;
               {| id := "1"; createdAt := 1; first := "Robert"; last := "Jones";
                  twitter := ""; avatar := ""; notes := ""; favorite := true |}].
Proof. vm_compute. reflexivity. Qed.

Example edit_can_set_favorite :
  fst (await (EditRoute.action {| contactId := Some "0" |}
                {| url := root_url;
                   formData := [("last", "Smyth"); ("favorite", "true"); ("nickname", "Al")] |})
             (fun _ => getContact "0") seeded)
  = Fulfilled (Some {| id := "0"; createdAt := 0; first := "Alice"; last := "Smyth";
                       twitter := "@alice"; avatar := "";
                       notes := "met at the conference"; favorite := true |}).
Proof. vm_compute. reflexivity. Qed.

(** C5. For a contact [c] stored under [cid] (the store accepting
    writes), [update cid u] fulfills with a record that is the
    field-level merge of [u] into [c]: supplied fields take the supplied
    value, the others keep theirs, and [id] and [createdAt] are those of
    [c] whatever [u] holds.  A following [get cid] returns that record,
    every other contact is as it was, and an empty partial record
    changes nothing.  In particular [update cid {favorite: b}] followed
    by [get cid] yields the contact with [favorite] equal to [b] and
    every other field as it was.  The favorite action updates in this
    way with the submitted flag.  The edit action hands the object built
    from the submitted form over whole: each text field and [favorite]
    that the object has a key for takes the object's value (for
    [favorite], its truthiness), every field without a key keeps its
    value, and [id] and [createdAt] stay whatever the form submits. *)
Theorem update_is_field_level_merge (s : Store) (cid : string) (u : ContactMutation)
    (c : ContactRecord) :
  find cid (contacts s) = Some c -> writable s = true ->
  (exists c' s',
      updateContact cid u s = (Fulfilled c', s')
      /\ field_level_merge c u c'
      /\ fst (getContact cid s') = Fulfilled (Some c')
      /\ (forall other, other <> cid -> find other (contacts s') = find other (contacts s))
      /\ id <$> contacts s' = id <$> contacts s
      /\ (u = no_fields -> c' = c /\ contacts s' = contacts s))
  /\ (forall b : bool, exists c' s',
        updateContact cid (favorite_only b) s = (Fulfilled c', s')
        /\ fst (getContact cid s') = Fulfilled (Some c')
        /\ c' = {| id := id c; createdAt := createdAt c; first := first c; last := last c;
                   twitter := twitter c; avatar := avatar c; notes := notes c;
                   favorite := b |})
  /\ (cid <> "" -> forall request, exists c' s',
        ContactRoute.action {| contactId := Some cid |} request s
        = (Fulfilled (JsonContact c'), s')
        /\ fst (getContact cid s') = Fulfilled (Some c')
        /\ favorite c' = bool_decide (Js.get "favorite" (formData request) = Some "true")
        /\ id c' = id c /\ createdAt c' = createdAt c /\ first c' = first c
        /\ last c' = last c /\ twitter c' = twitter c /\ avatar c' = avatar c
        /\ notes c' = notes c)
  /\ (cid <> "" -> forall request,
        let updates := Js.fromEntries (formData request) in
        exists c' s',
          EditRoute.action {| contactId := Some cid |} request s
          = (Fulfilled (redirect ("/contacts/" +:+ cid)), s')
          /\ fst (getContact cid s') = Fulfilled (Some c')
          /\ id c' = id c /\ createdAt c' = createdAt c
          /\ first c' = default (first c) (updates !! "first")
          /\ last c' = default (last c) (updates !! "last")
          /\ twitter c' = default (twitter c) (updates !! "twitter")
          /\ avatar c' = default (avatar c) (updates !! "avatar")
          /\ notes c' = default (notes c) (updates !! "notes")
          /\ favorite c' = match updates !! "favorite" with
                           | Some v => Js.truthy v
                           | None => favorite c
                           end).
Proof.
  intros Hc Hw.
  assert (Hupdate : forall v : ContactMutation, exists s',
            updateContact cid v s = (Fulfilled (merge c v), s')
            /\ fst (getContact cid s') = Fulfilled (Some (merge c v))
            /\ contacts s'
               = (fun x => if decide (id x = cid) then merge x v else x) <$> contacts s).
  { intros v. eexists. split; [by apply updateContact_found|].
    split; [by apply getContact_after_update | reflexivity]. }
  split; [|split; [|split]].
  - destruct (Hupdate u) as (s' & Hu & Hg & Hcs).
    exists (merge c u), s'.
    split; [exact Hu|]. split; [apply merge_is_field_level|]. split; [exact Hg|].
    rewrite Hcs. split; [|split].
    + intros other Hne. rewrite find_updated.
      destruct (find other (contacts s)) as [x|] eqn:Hx; [|done]; simpl.
      apply find_Some in Hx as [Hid _]. destruct (decide (id x = cid)); congruence.
    + rewrite <- list_fmap_compose. apply list_fmap_ext.
      intros i x _; simpl. by destruct (decide (id x = cid)).
    + intros ->. split; [apply merge_no_fields|].
      rewrite <- (list_fmap_id (contacts s)) at 2. apply list_fmap_ext.
      intros i x _; simpl. destruct (decide (id x = cid)); [apply merge_no_fields | done].
  - intros b. destruct (Hupdate (favorite_only b)) as (s' & Hu & Hg & _).
    exists (merge c (favorite_only b)), s'.
    split; [exact Hu|]. split; [exact Hg|]. apply merge_favorite_only.
  - intros Hne request.
    destruct (Hupdate (favorite_only
                (bool_decide (Js.get "favorite" (formData request) = Some "true"))))
      as (s' & Hu & Hg & _).
    eexists _, s'. unfold ContactRoute.action. past_invariant Hne. cbv zeta.
    awaited Hu. split; [reflexivity|]. split; [exact Hg|].
    by rewrite merge_favorite_only.
  - intros Hne request updates.
    destruct (Hupdate (EditRoute.as_mutation updates)) as (s' & Hu & Hg & _).
    exists (merge c (EditRoute.as_mutation updates)), s'.
    split.
    { unfold EditRoute.action. past_invariant Hne. cbv zeta. fold updates.
      by awaited Hu. }
    split; [exact Hg|].
    unfold merge, m_first, m_last, m_twitter, m_avatar, m_notes; cbn [id createdAt first
      last twitter avatar notes favorite].
    rewrite !text_field_as_mutation, m_favorite_as_mutation.
    repeat (split; [reflexivity|]).
    by destruct (updates !! "favorite").
Qed.

Lemma update_is_field_level_merge_witness :
  find "0" (contacts seeded) = Some alice /\ writable seeded = true
  /\ (exists c' s',
        updateContact "0" (favorite_only true) seeded = (Fulfilled c', s')
        /\ fst (getContact "0" s') = Fulfilled (Some c')
        /\ favorite c' = true /\ first c' = "Alice")
  /\ (exists c' s',
        EditRoute.action {| contactId := Some "0" |}
          {| url := root_url; formData := [("first", "Alicia"); ("id", "9")] |} seeded
        = (Fulfilled (redirect "/contacts/0"), s')
        /\ first c' = "Alicia" /\ id c' = "0").
Proof.
  split; [reflexivity|]. split; [reflexivity|].
  destruct (update_is_field_level_merge seeded "0" (favorite_only true) alice
              eq_refl eq_refl) as (_ & Hflag & _ & Hedit).
  split.
  - destruct (Hflag true) as (c' & s' & Hu & Hg & Hc').
    exists c', s'. split; [exact Hu|]. split; [exact Hg|].
    rewrite Hc'. split; reflexivity.
  - destruct (Hedit ltac:(discriminate)
                {| url := root_url; formData := [("first", "Alicia"); ("id", "9")] |})
      as (c' & s' & Ha & _ & Hid & _ & Hfirst & _).
    exists c', s'. split; [exact Ha|]. split; [|exact Hid].
    rewrite Hfirst. vm_compute. reflexivity.
Defined.

(** ** What a failed mutation leaves behind, and what a loader reads *)

Lemma invariant_settles (condition : option string) (message : string) (s : Store) :
  (exists v, condition = Some v /\ v <> "" /\ invariant condition message s = (Fulfilled v, s))
  \/ ((condition = None \/ condition = Some "")
      /\ invariant condition message s = (Rejected (ValidationError message), s)).
Proof.
  destruct condition as [[|a v]|].
  - right. split; [by right | reflexivity].
  - left. by exists (String a v).
  - right. split; [by left | reflexivity].
Qed.

Lemma updateContact_rejected (cid : string) (u : ContactMutation) (s s' : Store) (e : Thrown) :
  updateContact cid u s = (Rejected e, s') -> contacts s' = contacts s.
Proof.
  unfold updateContact. destruct (find cid (contacts s)); [destruct (writable s)|];
    intros H; by simplify_eq.
Qed.

Lemma deleteContact_rejected (cid : string) (s s' : Store) (e : Thrown) :
  deleteContact cid s = (Rejected e, s') -> contacts s' = contacts s.
Proof.
  unfold deleteContact. destruct (find cid (contacts s)); [destruct (writable s)|];
    intros H; by simplify_eq.
Qed.

Lemma createEmptyContact_rejected (s s' : Store) (e : Thrown) :
  createEmptyContact s = (Rejected e, s') -> contacts s' = contacts s.
Proof.
  unfold createEmptyContact. destruct (writable s); intros H; by simplify_eq.
Qed.

(** A mutation that rejects has not changed any contact. *)
Lemma perform_rejected (m : Mutation) (s s' : Store) (e : Thrown) :
  perform m s = (Rejected e, s') -> contacts s' = contacts s.
Proof.
  destruct m as [|params request|params request|params]; simpl.
  - unfold Root.action, await.
    destruct (createEmptyContact s) as [[c|e'] s1] eqn:Hc; intros H; simplify_eq.
    by apply createEmptyContact_rejected in Hc.
  - unfold ContactRoute.action, await.
    destruct (invariant_settles (contactId params) "Missing contactId param" s)
      as [(v & _ & _ & ->) | [_ ->]]; [|intros H; by simplify_eq].
    destruct (updateContact _ _ s) as [[c|e'] s1] eqn:Hu; intros H; simplify_eq.
    by apply updateContact_rejected in Hu.
  - unfold EditRoute.action, await.
    destruct (invariant_settles (contactId params) "Missing contactId param" s)
      as [(v & _ & _ & ->) | [_ ->]]; [|intros H; by simplify_eq].
    destruct (updateContact _ _ s) as [[c|e'] s1] eqn:Hu; intros H; simplify_eq.
    by apply updateContact_rejected in Hu.
  - unfold DestroyRoute.action, await.
    destruct (invariant_settles (contactId params) "Missing contactId param" s)
      as [(v & _ & _ & ->) | [_ ->]]; [|intros H; by simplify_eq].
    destruct (deleteContact _ s) as [[c|e'] s1] eqn:Hu; intros H; simplify_eq.
    by apply deleteContact_rejected in Hu.
Qed.

Lemma contact_loader_reads (params : Params) (s1 s2 : Store) :
  contacts s1 = contacts s2 ->
  fst (ContactRoute.loader params s1) = fst (ContactRoute.loader params s2)
  /\ contacts (snd (ContactRoute.loader params s1)) = contacts s1.
Proof.
  intros H. unfold ContactRoute.loader, await.
  destruct (contactId params) as [[|a v]|]; simpl; try done.
  unfold getContact. rewrite H.
  by destruct (find (String a v) (contacts s2)).
Qed.

(** A loader returns what the contacts of the store determine, and
    changes none of them. *)
Lemma refetch_reads (d : Display) (s1 s2 : Store) :
  contacts s1 = contacts s2 ->
  fst (refetch d s1) = fst (refetch d s2)
  /\ contacts (snd (refetch d s1)) = contacts s1.
Proof.
  intros H. destruct d as [request|params|params]; simpl.
  - unfold Root.loader, await, getContacts. rewrite H.
    by destruct (Js.get "q" (searchParams (url request))).
  - destruct (contact_loader_reads params s1 s2 H) as [H1 H2].
    unfold await.
    destruct (ContactRoute.loader params s1) as [[x1|e1] t1],
             (ContactRoute.loader params s2) as [[x2|e2] t2]; simpl in *;
      by simplify_eq.
  - destruct (contact_loader_reads params s1 s2 H) as [H1 H2].
    unfold await. change (EditRoute.loader params) with (ContactRoute.loader params).
    destruct (ContactRoute.loader params s1) as [[x1|e1] t1],
             (ContactRoute.loader params s2) as [[x2|e2] t2]; simpl in *;
      by simplify_eq.
Qed.

Lemma run_lifecycle {A V} (mutation : Async A) (revalidation : Async V) (k : nat) (s : Store) :
  run mutation revalidation (2 + k) (Submitted s)
  = ([Submit; Settle; Revalidate],
     Revalidated (fst (mutation s))
       (fst (revalidation (snd (mutation s))))
       (snd (revalidation (snd (mutation s))))).
Proof.
  simpl. destruct (mutation s) as [outcome s1]; simpl.
  destruct (revalidation s1) as [view s2]; simpl.
  by destruct k.
Qed.

(** ** Absent identifiers *)

Example get_unknown : fst (getContact "42" seeded) = Rejected NotFoundError.
Proof. reflexivity. Qed.

Example delete_then_list :
  fst (await (deleteContact "0") (fun _ => getContacts None) seeded) = Fulfilled [bob].
Proof. reflexivity. Qed.

(** C6. When no contact is stored under [cid]: [get], [update] and
    [delete] fail with [NotFoundError] and leave every contact as it
    was; the loaders of the contact and edit routes surface the failure
    to their caller as a rejection; and a mutation aimed at [cid] does
    not stop its lifecycle, which settles with [NotFoundError] and still
    revalidates, showing the unchanged contacts.  When a contact is
    stored under [cid] (the store accepting writes), [delete cid]
    succeeds, after which [get cid] fails with [NotFoundError] and
    [list null] is the old list without the records of that id. *)
Theorem absent_id_is_not_found (s : Store) (cid : string) :
  (find cid (contacts s) = None ->
     fst (getContact cid s) = Rejected NotFoundError
     /\ contacts (snd (getContact cid s)) = contacts s
     /\ (forall u, fst (updateContact cid u s) = Rejected NotFoundError
                   /\ contacts (snd (updateContact cid u s)) = contacts s)
     /\ fst (deleteContact cid s) = Rejected NotFoundError
     /\ contacts (snd (deleteContact cid s)) = contacts s
     /\ (cid <> "" ->
           fst (ContactRoute.loader {| contactId := Some cid |} s) = Rejected NotFoundError
           /\ fst (EditRoute.loader {| contactId := Some cid |} s) = Rejected NotFoundError
           /\ forall (m : Mutation) (request : Request) (d : Display) (k : nat),
               m ∈ [ToggleFavorite {| contactId := Some cid |} request;
                    Edit {| contactId := Some cid |} request;
                    Destroy {| contactId := Some cid |}] ->
               exists s',
                 run (perform m) (refetch d) (2 + k) (Submitted s)
                 = ([Submit; Settle; Revalidate],
                    Revalidated (Rejected NotFoundError) (fst (refetch d s)) s')
                 /\ contacts s' = contacts s))
  /\ (forall c, find cid (contacts s) = Some c -> writable s = true ->
        exists s',
          deleteContact cid s = (Fulfilled tt, s')
          /\ fst (getContact cid s') = Rejected NotFoundError
          /\ fst (getContacts None s') = Fulfilled (contacts s')
          /\ (forall x, x ∈ contacts s' <-> x ∈ contacts s /\ id x <> cid)).
Proof.
  split.
  - intros Hnone.
    assert (Hget : getContact cid s = (Rejected NotFoundError, invoked (CallGet cid) s))
      by (unfold getContact; by rewrite Hnone).
    assert (Hupd : forall u, updateContact cid u s
                             = (Rejected NotFoundError, invoked (CallUpdate cid u) s))
      by (intros u; unfold updateContact; by rewrite Hnone).
    assert (Hdel : deleteContact cid s = (Rejected NotFoundError, invoked (CallDelete cid) s))
      by (unfold deleteContact; by rewrite Hnone).
    rewrite Hget, Hdel.
    split; [done|]. split; [done|]. split; [intros u; by rewrite Hupd|].
    split; [done|]. split; [done|]. intros H. split; [|split].
    + unfold ContactRoute.loader.
      past_invariant H.
      by thrown Hget.
    + unfold EditRoute.loader.
      past_invariant H.
      by thrown Hget.
    + intros m request d k Hm. rewrite run_lifecycle.
      assert (Hp : exists s1, perform m s = (Rejected NotFoundError, s1)).
      { rewrite !elem_of_cons in Hm. destruct Hm as [->|[->|[->|Hm]]]; simpl.
        - unfold ContactRoute.action.
          past_invariant H.
          thrown (Hupd _). eauto.
        - unfold EditRoute.action.
          past_invariant H.
          thrown (Hupd _). eauto.
        - unfold DestroyRoute.action.
          past_invariant H.
          thrown Hdel. eauto.
        - by apply elem_of_nil in Hm. }
      destruct Hp as [s1 Hp]. rewrite Hp; simpl.
      pose proof (perform_rejected _ _ _ _ Hp) as Hs1.
      destruct (refetch_reads d s1 s Hs1) as [Hview Hkeep].
      eexists. split; [by rewrite Hview | congruence].
  - intros c Hc Hw. unfold deleteContact. rewrite Hc, Hw.
    eexists. split; [reflexivity|]. split; [|split].
    + unfold getContact; simpl. by rewrite find_deleted.
    + reflexivity.
    + intros x; simpl. rewrite list_elem_of_filter. tauto.
Qed.

Lemma absent_id_is_not_found_witness :
  (find "42" (contacts seeded) = None
   /\ fst (getContact "42" seeded) = Rejected NotFoundError)
  /\ (find "0" (contacts seeded) = Some alice /\ writable seeded = true
      /\ exists s', deleteContact "0" seeded = (Fulfilled tt, s')
                    /\ fst (getContact "0" s') = Rejected NotFoundError).
Proof.
  split.
  - split; [reflexivity|].
    exact (proj1 (proj1 (absent_id_is_not_found seeded "42") eq_refl)).
  - split; [reflexivity|]. split; [reflexivity|].
    destruct (proj2 (absent_id_is_not_found seeded "0") alice eq_refl eq_refl)
      as (s' & Hd & Hg & _).
    exists s'. split; [exact Hd | exact Hg].
Defined.

(** ** Missing route parameter *)

Example destroy_without_id :
  DestroyRoute.action {| contactId := None |} seeded
  = (Rejected (ValidationError "Missing contactId param"), seeded).
Proof. reflexivity. Qed.

(** C7. A favorite toggle, an edit save or a destroy whose [contactId]
    parameter is missing (undefined, or empty) is rejected with the
    validation error of [invariant], and the store it leaves is the
    store it found: no contact has changed and no store operation has
    been invoked. *)
Theorem missing_contactId_aborts (params : Params) (request : Request) (s : Store) :
  contactId params = None \/ contactId params = Some "" ->
  ContactRoute.action params request s
  = (Rejected (ValidationError "Missing contactId param"), s)
  /\ EditRoute.action params request s
     = (Rejected (ValidationError "Missing contactId param"), s)
  /\ DestroyRoute.action params s
     = (Rejected (ValidationError "Missing contactId param"), s)
  /\ (forall m, m ∈ [ToggleFavorite params request; Edit params request; Destroy params] ->
        calls (snd (perform m s)) = calls s
        /\ contacts (snd (perform m s)) = contacts s).
Proof.
  intros Hmissing.
  assert (Hinv : invariant (contactId params) "Missing contactId param" s
                 = (Rejected (ValidationError "Missing contactId param"), s))
    by (destruct Hmissing as [-> | ->]; reflexivity).
  assert (H1 := await_rejected _
    (fun contactId =>
       let formData := formData request in
       let! updated :=
         updateContact contactId
           (favorite_only (bool_decide (Js.get "favorite" formData = Some "true"))) in
       resolve (JsonContact updated)) _ _ _ Hinv).
  assert (H2 := await_rejected _
    (fun contactId =>
       let formData := formData request in
       let updates := Js.fromEntries formData in
       let! _ := updateContact contactId (EditRoute.as_mutation updates) in
       resolve (redirect ("/contacts/" +:+ contactId))) _ _ _ Hinv).
  assert (H3 := await_rejected _
    (fun contactId => let! _ := deleteContact contactId in resolve (redirect "/"))
    _ _ _ Hinv).
  change (ContactRoute.action params request s
          = (Rejected (ValidationError "Missing contactId param"), s)) in H1.
  change (EditRoute.action params request s
          = (Rejected (ValidationError "Missing contactId param"), s)) in H2.
  change (DestroyRoute.action params s
          = (Rejected (ValidationError "Missing contactId param"), s)) in H3.
  split; [done|]. split; [done|]. split; [done|].
  intros m Hm. rewrite !elem_of_cons in Hm.
  destruct Hm as [->|[->|[->|Hm]]]; simpl;
    try (by apply elem_of_nil in Hm); by rewrite ?H1, ?H2, ?H3.
Qed.

Lemma missing_contactId_aborts_witness :
  DestroyRoute.action {| contactId := None |} seeded
  = (Rejected (ValidationError "Missing contactId param"), seeded).
Proof.
  exact (proj1 (proj2 (proj2
    (missing_contactId_aborts {| contactId := None |}
       {| url := root_url; formData := [] |} seeded (or_introl eq_refl))))).
Defined.

(** ** The lifecycle of a mutation *)

Lemma step_submitted {A V} (mutation : Async A) (revalidation : Async V)
    (s s1 : Store) (outcome : Outcome A) :
  mutation s = (outcome, s1) ->
  step mutation revalidation (Submitted s) = Some (Settled outcome s1).
Proof. intros H; simpl. by rewrite H. Qed.

Lemma step_settled {A V} (mutation : Async A) (revalidation : Async V)
    (s1 s2 : Store) (outcome : Outcome A) (view : Outcome V) :
  revalidation s1 = (view, s2) ->
  step mutation revalidation (Settled outcome s1) = Some (Revalidated outcome view s2).
Proof. intros H; simpl. by rewrite H. Qed.

Example rejected_toggle_revalidates :
  run (perform (ToggleFavorite {| contactId := Some "0" |}
                  {| url := root_url; formData := [("favorite", "true")] |}))
      (refetch (ContactPage {| contactId := Some "0" |})) 2 (Submitted read_only)
  = ([Submit; Settle; Revalidate],
     Revalidated (Rejected StoreError)
       (Fulfilled (ContactData {| ContactRoute.contact := alice |}))
       {| contacts := [alice; bob]; clock := 2; writable := false;
          calls := [CallUpdate "0" (favorite_only true); CallGet "0"] |}).
Proof. reflexivity. Qed.

Example fulfilled_toggle_revalidates :
  run (perform (ToggleFavorite {| contactId := Some "0" |}
                  {| url := root_url; formData := [("favorite", "true")] |}))
      (refetch (Sidebar {| url := root_url; formData := [] |})) 2 (Submitted seeded)
  = ([Submit; Settle; Revalidate],
     Revalidated
       (Fulfilled (JsonContact
          {| id := "0"; createdAt := 0; first := "Alice"; last := "Smith";
             twitter := "@alice"; avatar := ""; notes := "met at the conference";
             favorite := true |}))
       (Fulfilled (SidebarData
          {| Root.contacts :=
               [{| id := "0"; createdAt := 0; first := "Alice"; last := "Smith";
                   twitter := "@alice"; avatar := ""; notes := "met at the conference";
                   favorite := true |}; bob];
             Root.q := None |}))
       {| contacts :=
            [{| id := "0"; createdAt := 0; first := "Alice"; last := "Smith";
                twitter := "@alice"; avatar := ""; notes := "met at the conference";
                favorite := true |}; bob];
          clock := 2; writable := true;
          calls := [CallUpdate "0" (favorite_only true); CallList None] |}).
Proof. vm_compute. reflexivity. Qed.

(** What a loader returns is the authoritative state of its route. *)
Lemma refetch_shows (d : Display) (s : Store) :
  fst (refetch d s) = authoritative d (contacts s).
Proof.
  destruct d as [request|params|params]; simpl.
  - unfold Root.loader, await, getContacts.
    by destruct (Js.get "q" (searchParams (url request))).
  - unfold ContactRoute.loader, await.
    destruct (contactId params) as [[|a v]|]; simpl; try done.
    unfold getContact. by destruct (find (String a v) (contacts s)).
  - unfold EditRoute.loader, await.
    destruct (contactId params) as [[|a v]|]; simpl; try done.
    unfold getContact. by destruct (find (String a v) (contacts s)).
Qed.

Lemma updateContact_fulfilled (cid : string) (u : ContactMutation) (s s' : Store)
    (c : ContactRecord) :
  updateContact cid u s = (Fulfilled c, s') ->
  contacts s' = (fun x => if decide (id x = cid) then merge x u else x) <$> contacts s.
Proof.
  unfold updateContact. destruct (find cid (contacts s)); [destruct (writable s)|];
    intros H; by simplify_eq.
Qed.

Lemma update_by_param (cid : string) (u : ContactMutation) (cs : list ContactRecord) :
  (fun x => if decide (id x = cid) then merge x u else x) <$> cs
  = (fun x => if decide (Some (id x) = Some cid) then merge x u else x) <$> cs.
Proof.
  apply list_fmap_ext. intros i x _.
  destruct (decide (id x = cid)), (decide (Some (id x) = Some cid)); congruence.
Qed.

(** A mutation that fulfills has left the contacts it is to leave. *)
Lemma perform_fulfilled (m : Mutation) (s s' : Store) (r : Response) :
  perform m s = (Fulfilled r, s') -> contacts s' = applied m s.
Proof.
  destruct m as [|params request|params request|params]; simpl.
  - unfold Root.action, await, createEmptyContact, resolve.
    destruct (writable s); intros H; by simplify_eq.
  - unfold ContactRoute.action, await.
    destruct (invariant_settles (contactId params) "Missing contactId param" s)
      as [(v & -> & _ & ->) | [_ ->]]; [|intros H; by simplify_eq].
    destruct (updateContact _ _ s) as [[c|e'] s1] eqn:Hu; unfold resolve; intros H;
      [|discriminate H].
    injection H as _ <-.
    rewrite (updateContact_fulfilled _ _ _ _ _ Hu). apply update_by_param.
  - unfold EditRoute.action, await.
    destruct (invariant_settles (contactId params) "Missing contactId param" s)
      as [(v & -> & _ & ->) | [_ ->]]; [|intros H; by simplify_eq].
    destruct (updateContact _ _ s) as [[c|e'] s1] eqn:Hu; unfold resolve; intros H;
      [|discriminate H].
    injection H as _ <-.
    rewrite (updateContact_fulfilled _ _ _ _ _ Hu). apply update_by_param.
  - unfold DestroyRoute.action, await.
    destruct (invariant_settles (contactId params) "Missing contactId param" s)
      as [(v & -> & _ & ->) | [_ ->]]; [|intros H; by simplify_eq].
    unfold deleteContact, resolve.
    destruct (find v (contacts s)); [destruct (writable s)|];
      intros H; try discriminate H.
    injection H as _ <-. simpl.
    apply list_filter_iff. intros x. split; congruence.
Qed.

(** C1. For every mutation (create, favorite toggle, edit, destroy) and
    every displayed route, the lifecycle started by submitting the
    mutation goes through Submit, Settle and Revalidate, in this order
    and given any fuel of two steps or more: the action settles to some
    outcome, and the route's loader then runs on the store the action
    left, whether the outcome is a fulfillment or a rejection.  What the
    loader returns is the authoritative state of the displayed route
    for the contacts the action left in the store, and the loader leaves
    them as they are.  When the action fulfilled, these contacts are the
    ones the mutation is to leave.  When it rejected, they are the
    contacts from before the mutation, so the loader re-displays the
    unchanged state, the one it returned before the mutation.  A step
    enters Revalidate only from Settle, and Settle only from Submit. *)
Theorem revalidation_is_unconditional (m : Mutation) (d : Display) (s : Store) (k : nat) :
  exists outcome s1 view s2,
    perform m s = (outcome, s1)
    /\ refetch d s1 = (view, s2)
    /\ step (perform m) (refetch d) (Submitted s) = Some (Settled outcome s1)
    /\ step (perform m) (refetch d) (Settled outcome s1) = Some (Revalidated outcome view s2)
    /\ step (perform m) (refetch d) (Revalidated outcome view s2) = None
    /\ run (perform m) (refetch d) (2 + k) (Submitted s)
       = ([Submit; Settle; Revalidate], Revalidated outcome view s2)
    /\ view = authoritative d (contacts s1)
    /\ contacts s2 = contacts s1
    /\ (is_fulfilled outcome = true -> contacts s1 = applied m s)
    /\ (is_fulfilled outcome = false ->
          contacts s1 = contacts s
          /\ view = authoritative d (contacts s)
          /\ view = fst (refetch d s) /\ contacts s2 = contacts s)
    /\ (forall l l', step (perform m) (refetch d) l = Some l' ->
          (phase l' = Revalidate -> phase l = Settle)
          /\ (phase l' = Settle -> phase l = Submit)
          /\ phase l' <> Submit).
Proof.
  destruct (perform m s) as [outcome s1] eqn:Hm.
  destruct (refetch d s1) as [view s2] eqn:Hd.
  exists outcome, s1, view, s2.
  assert (Hview : view = authoritative d (contacts s1))
    by (rewrite <- refetch_shows; by rewrite Hd).
  assert (Hkeep : contacts s2 = contacts s1).
  { destruct (refetch_reads d s1 s1 eq_refl) as [_ H]. by rewrite Hd in H. }
  split; [done|]. split; [done|].
  split; [simpl; by rewrite Hm|]. split; [simpl; by rewrite Hd|]. split; [done|].
  split; [rewrite run_lifecycle, Hm; simpl; by rewrite Hd|].
  split; [exact Hview|]. split; [exact Hkeep|]. split; [|split].
  - intros Hok. destruct outcome as [r|e]; [|discriminate Hok].
    exact (perform_fulfilled _ _ _ _ Hm).
  - intros Hfail. destruct outcome as [r|e]; [discriminate Hfail|].
    pose proof (perform_rejected _ _ _ _ Hm) as Hsame.
    split; [exact Hsame|]. split; [by rewrite Hview, Hsame|].
    split; [by rewrite refetch_shows, Hview, Hsame | congruence].
  - intros l l' Hstep. destruct l as [s0|o s0|o v s0]; simpl in Hstep.
    + destruct (perform m s0). by simplify_eq.
    + destruct (refetch d s0). by simplify_eq.
    + discriminate Hstep.
Qed.

(** ** Optimistic display of the favorite flag *)

Example optimistic_star_then_revert :
  let params := {| contactId := Some "0" |} in
  let request := {| url := root_url; formData := [("favorite", "true")] |} in
  let act := ContactRoute.action params request in
  let load := ContactRoute.loader params in
  let shown l := favorite_shown (formData request) alice l in
  (shown (Submitted read_only),
   shown <$> step act load (Submitted read_only),
   shown <$> (step act load (Submitted read_only) ≫= step act load))
  = (Some true, Some (Some true), Some (Some false)).
Proof. reflexivity. Qed.

(** C2. [Favorite] displays the favorite value of the submitted form
    data while its fetcher is submitting or loading, and the contact's
    own value while it is idle.  For a stored contact that is not a
    favorite and a submitted [favorite=true]: the value displayed is
    true when the request is submitted and true after the action has
    settled (the fetcher loading), whatever the action settled to; once
    the loader has returned, the fetcher is idle and the value displayed
    is the stored one, true when the update was accepted and false when
    it was rejected. *)
Theorem optimistic_display (s : Store) (cid : string) (c : ContactRecord) (request : Request) :
  cid <> "" -> find cid (contacts s) = Some c -> favorite c = false ->
  Js.get "favorite" (formData request) = Some "true" ->
  (forall payload authoritative,
      displayed (Favorite (Submitting payload) authoritative)
      = bool_decide (Js.get "favorite" payload = Some "true")
      /\ displayed (Favorite (Loading payload) authoritative)
         = bool_decide (Js.get "favorite" payload = Some "true")
      /\ displayed (Favorite Idle authoritative) = authoritative)
  /\ let params := {| contactId := Some cid |} in
     let act := ContactRoute.action params request in
     let load := ContactRoute.loader params in
     let payload := formData request in
     exists outcome s1 c' s2,
       step act load (Submitted s) = Some (Settled outcome s1)
       /\ step act load (Settled outcome s1)
          = Some (Revalidated outcome (Fulfilled {| ContactRoute.contact := c' |}) s2)
       /\ request_state (A := Response) (V := ContactRoute.LoaderData) (Submitted s) payload
          = Submitting payload
       /\ favorite_shown payload c (Submitted s) = Some true
       /\ request_state (A := Response) (V := ContactRoute.LoaderData) (Settled outcome s1) payload
          = Loading payload
       /\ favorite_shown payload c (Settled outcome s1) = Some true
       /\ request_state (Revalidated outcome (Fulfilled {| ContactRoute.contact := c' |}) s2)
            payload = Idle
       /\ favorite_shown payload c
            (Revalidated outcome (Fulfilled {| ContactRoute.contact := c' |}) s2)
          = Some (favorite c')
       /\ find cid (contacts s2) = Some c'
       /\ favorite c' = is_fulfilled outcome
       /\ is_fulfilled outcome = writable s.
Proof.
  intros Hne Hc Hfav Hsub. split.
  - intros payload authoritative. by repeat split.
  - intros params act load payload.
    assert (Hload : forall s1 x, find cid (contacts s1) = Some x ->
              load s1 = (Fulfilled {| ContactRoute.contact := x |}, invoked (CallGet cid) s1)).
    { intros s1 x Hx. unfold load, ContactRoute.loader, params.
      past_invariant Hne.
      unfold await, getContact. by rewrite Hx. }
    assert (Hshown : forall b : bool,
              displayed (Favorite (Submitting payload) b) = true
              /\ displayed (Favorite (Loading payload) b) = true).
    { intros b. unfold Favorite, payload; simpl. rewrite Hsub. by split. }
    pose proof (find_Some _ _ _ Hc) as [Hid _].
    destruct (writable s) eqn:Hw.
    + assert (Hact : act s = (Fulfilled (JsonContact (merge c (favorite_only true))),
                with_contacts
                  ((fun x => if decide (id x = cid) then merge x (favorite_only true) else x)
                     <$> contacts s)
                  (invoked (CallUpdate cid (favorite_only true)) s))).
      { unfold act, ContactRoute.action, params.
        past_invariant Hne.
        cbv zeta. rewrite Hsub.
        by awaited (updateContact_found _ _ _ _ Hc Hw). }
      eexists _, _, (merge c (favorite_only true)), _.
      split; [apply step_submitted, Hact|].
      split; [apply step_settled, Hload; simpl; rewrite find_updated, Hc; simpl;
              by destruct (decide (id c = cid))|].
      destruct (Hshown (favorite c)) as [Hsubmitting Hloading].
      split; [reflexivity|]. split; [exact (f_equal Some Hsubmitting)|].
      split; [reflexivity|]. split; [exact (f_equal Some Hloading)|].
      split; [reflexivity|]. split; [reflexivity|].
      split; [simpl; rewrite find_updated, Hc; simpl;
              by destruct (decide (id c = cid))|].
      by split.
    + assert (Hact : act s = (Rejected StoreError,
                invoked (CallUpdate cid (favorite_only true)) s)).
      { unfold act, ContactRoute.action, params.
        past_invariant Hne.
        cbv zeta. rewrite Hsub.
        apply await_rejected. unfold updateContact. by rewrite Hc, Hw. }
      eexists _, _, c, _.
      split; [apply step_submitted, Hact|].
      split; [apply step_settled, Hload; exact Hc|].
      destruct (Hshown (favorite c)) as [Hsubmitting Hloading].
      split; [reflexivity|]. split; [exact (f_equal Some Hsubmitting)|].
      split; [reflexivity|]. split; [exact (f_equal Some Hloading)|].
      split; [reflexivity|]. split; [reflexivity|].
      split; [exact Hc|]. by split.
Qed.

Lemma optimistic_display_witness :
  exists outcome s1,
    step (ContactRoute.action {| contactId := Some "0" |}
            {| url := root_url; formData := [("favorite", "true")] |})
         (ContactRoute.loader {| contactId := Some "0" |}) (Submitted seeded)
    = Some (Settled outcome s1)
    /\ favorite_shown [("favorite", "true")] alice (Settled outcome s1) = Some true.
Proof.
  destruct (optimistic_display seeded "0" alice
              {| url := root_url; formData := [("favorite", "true")] |}
              ltac:(discriminate) eq_refl eq_refl eq_refl)
    as [_ (outcome & s1 & c' & s2 & H1 & _ & _ & _ & _ & H2 & _)].
  exists outcome, s1. split; [exact H1 | exact H2].
Defined.

(** ** The favorite toggle *)

Example unstar_bob :
  fst (await (ContactRoute.action {| contactId := Some "1" |}
                {| url := root_url; formData := click (Favorite Idle (favorite bob)) |})
             (fun _ => getContact "1") seeded)
  = Fulfilled (Some {| id := "1"; createdAt := 1; first := "Bob"; last := "Jones";
                       twitter := ""; avatar := ""; notes := ""; favorite := false |}).
Proof. reflexivity. Qed.

Example yes_is_not_true :
  fst (await (ContactRoute.action {| contactId := Some "0" |}
                {| url := root_url; formData := [("favorite", "yes")] |})
             (fun _ => getContact "0") seeded)
  = Fulfilled (Some alice).
Proof. reflexivity. Qed.

(** C10. For a stored contact (the store accepting writes), the favorite
    action leaves the contact with [favorite] true exactly when the
    submitted field [favorite] is the string "true"; with any other
    value, or without the field, it leaves it false.  Whatever the
    fetcher and the contact, the button of [Favorite] submits the field
    [favorite] with the negation of the value it displays. *)
Theorem favorite_action_sets_flag (s : Store) (cid : string) (c : ContactRecord)
    (request : Request) :
  cid <> "" -> find cid (contacts s) = Some c -> writable s = true ->
  (exists c' s',
      ContactRoute.action {| contactId := Some cid |} request s
      = (Fulfilled (JsonContact c'), s')
      /\ find cid (contacts s') = Some c'
      /\ (favorite c' = true <-> Js.get "favorite" (formData request) = Some "true")
      /\ (Js.get "favorite" (formData request) = None -> favorite c' = false)
      /\ (forall v, Js.get "favorite" (formData request) = Some v -> v <> "true" ->
            favorite c' = false))
  /\ (forall fetcher authoritative,
        let button := Favorite fetcher authoritative in
        click button = [("favorite", if displayed button then "false" else "true")]
        /\ bool_decide (Js.get "favorite" (click button) = Some "true")
           = negb (displayed button)).
Proof.
  intros Hne Hc Hw. split.
  - eexists _, _. unfold ContactRoute.action.
    past_invariant Hne. cbv zeta.
    awaited (updateContact_found _ _ _ _ Hc Hw).
    split; [reflexivity|]. split.
    { simpl. rewrite find_updated, Hc; simpl.
      apply find_Some in Hc as [Hid _]. by destruct (decide (id c = cid)). }
    simpl. split; [apply bool_decide_eq_true|].
    split; [intros ->; by apply bool_decide_eq_false|].
    intros v -> Hv. apply bool_decide_eq_false. congruence.
  - intros fetcher authoritative button. unfold click, button, Favorite; simpl.
    by destruct fetcher as [|fd|fd]; simpl;
      [destruct authoritative | case_bool_decide ..].
Qed.

Lemma favorite_action_sets_flag_witness :
  exists c' s',
    ContactRoute.action {| contactId := Some "0" |}
      {| url := root_url; formData := [("favorite", "true")] |} seeded
    = (Fulfilled (JsonContact c'), s')
    /\ find "0" (contacts s') = Some c'.
Proof.
  destruct (favorite_action_sets_flag seeded "0" alice
              {| url := root_url; formData := [("favorite", "true")] |}
              ltac:(discriminate) eq_refl eq_refl)
    as [(c' & s' & Ha & Hf & _) _].
  exists c', s'. split; [exact Ha | exact Hf].
Defined.

(** ** Search and history *)

Lemma last_cons (l : list string) (a d : string) :
  List.last (a :: l) d = List.last l a.
Proof.
  revert a d. induction l as [|b l IH]; intros a d; [done|].
  change (List.last (a :: b :: l) d) with (List.last (b :: l) d).
  by rewrite !IH.
Qed.

(** Typing while a query is active replaces the current entry, one
    keystroke after the other. *)
Lemma typing_replaces (texts : list string) (h : History) (active : string) :
  loaded_q h = Some active ->
  typing texts h
  = (replicate (length texts) Replaced,
     match texts with
     | [] => h
     | t :: rest => replace (search_url (List.last rest t)) h
     end).
Proof.
  revert h active. induction texts as [|text rest IH]; intros h active Hq; [done|].
  cbn [typing]. unfold onChange at 1. rewrite Hq; simpl bool_decide.
  unfold submit; simpl opt_replace; cbn iota.
  rewrite (IH (replace (search_url text) h) text) by reflexivity.
  destruct rest as [|t rest']; [done|].
  by rewrite <- (last_cons rest' t text).
Qed.

Example a_then_ab :
  typing ["a"; "ab"] fresh_history
  = ([Pushed; Replaced],
     {| back := [root_url]; current := search_url "ab"; forward := [] |}).
Proof. reflexivity. Qed.

(** C3. The [onChange] handler of the search form pushes a history
    entry when the current query parameter [q] is null and replaces the
    current entry when [q] is set.  Hence, in a session that starts
    without a query parameter, the first submission pushes and every
    later one replaces: the history ends one entry longer, whatever the
    number of submissions, with the last text as the current entry.
    Submitting "a" then "ab" is one push followed by one replacement. *)
Theorem first_search_pushes_then_replaces (h : History) :
  loaded_q h = None ->
  (forall text, onChange (loaded_q h) text h = (Pushed, push (search_url text) h))
  /\ (forall active text h', loaded_q h' = Some active ->
        onChange (loaded_q h') text h' = (Replaced, replace (search_url text) h'))
  /\ (forall text texts,
        typing (text :: texts) h
        = (Pushed :: replicate (length texts) Replaced,
           {| back := current h :: back h;
              current := search_url (List.last texts text);
              forward := [] |}))
  /\ typing ["a"; "ab"] h
     = ([Pushed; Replaced],
        {| back := current h :: back h; current := search_url "ab"; forward := [] |}).
Proof.
  intros Hq.
  assert (Hfirst : forall text, onChange (loaded_q h) text h = (Pushed, push (search_url text) h))
    by (intros text; by rewrite Hq).
  assert (Hall : forall text texts,
        typing (text :: texts) h
        = (Pushed :: replicate (length texts) Replaced,
           {| back := current h :: back h;
              current := search_url (List.last texts text);
              forward := [] |})).
  { intros text texts. cbn [typing]. rewrite Hfirst.
    rewrite (typing_replaces texts (push (search_url text) h) text) by reflexivity.
    destruct texts as [|t rest]; [done|]. by rewrite (last_cons rest t text). }
  split; [exact Hfirst|]. split; [|split; [exact Hall | exact (Hall "a" ["ab"])]].
  intros active text h' Hq'. by rewrite Hq'.
Qed.

Lemma first_search_pushes_then_replaces_witness :
  typing ["a"; "ab"] fresh_history
  = ([Pushed; Replaced],
     {| back := [root_url]; current := search_url "ab"; forward := [] |}).
Proof.
  exact (proj2 (proj2 (proj2 (first_search_pushes_then_replaces fresh_history eq_refl)))).
Defined.

(** ** Resynchronising the search input *)

Lemma or_else_empty (q : option string) : Js.or_else q "" = default "" q.
Proof. by destruct q as [[|a v]|]. Qed.

Lemma input_text_resync (q : option string) (doc : gmap string Element) :
  doc !! "q" <> Some HTMLElement ->
  resync q (render_input q doc) !! "q" = Some (HTMLInputElement (Js.or_else q "")).
Proof.
  intros Hdoc. unfold render_input, resync.
  destruct (doc !! "q") as [[v|]|] eqn:Hq; [| done |].
  - rewrite Hq. apply lookup_insert_eq.
  - rewrite lookup_insert_eq. apply lookup_insert_eq.
Qed.

Example back_button_clears_input :
  let h1 := snd (typing ["a"] fresh_history) in
  let dom0 := App_render (loaded_q fresh_history) {| document := ∅; effect_deps := None |} in
  let dom1 := App_render (loaded_q h1) (user_types "a" dom0) in
  let dom2 := App_render (loaded_q (go_back h1)) dom1 in
  (input_text dom0, input_text dom1, loaded_q (go_back h1), input_text dom2)
  = (Some "", Some "a", None, Some "").
Proof. vm_compute. reflexivity. Qed.

(** C9. When [App] renders with a query parameter [q'] that differs
    from the one of its previous render, as after a back or forward
    navigation, the effect sets the text of the search input to [q'],
    and to the empty string when [q'] is absent.  The render by itself
    does not: a mounted input keeps the text it holds, and when [q'] is
    the parameter of the previous render the text is left alone. *)
Theorem input_resynchronized (dom : AppDom) (q' : option string) :
  document dom !! "q" <> Some HTMLElement ->
  effect_deps dom <> Some q' ->
  input_text (App_render q' dom) = Some (default "" q')
  /\ (q' = None -> input_text (App_render q' dom) = Some "")
  /\ effect_deps (App_render q' dom) = Some q'
  /\ (forall v, input_text dom = Some v ->
        input_text {| document := render_input q' (document dom);
                      effect_deps := effect_deps dom |} = Some v)
  /\ (forall v q, input_text dom = Some v -> effect_deps dom = Some q ->
        input_text (App_render q dom) = Some v)
  /\ (forall h, effect_deps dom = Some (loaded_q h) ->
        (q' = loaded_q (go_back h) ->
           input_text (App_render (loaded_q (go_back h)) dom)
           = Some (default "" (loaded_q (go_back h))))
        /\ (q' = loaded_q (go_forward h) ->
              input_text (App_render (loaded_q (go_forward h)) dom)
              = Some (default "" (loaded_q (go_forward h))))).
Proof.
  intros Hdoc Hchanged.
  assert (Hsync : input_text (App_render q' dom) = Some (default "" q')).
  { unfold App_render, input_text; simpl.
    destruct (decide (effect_deps dom = Some q')) as [Heq|_]; [done|].
    by rewrite (input_text_resync q' _ Hdoc), or_else_empty. }
  assert (Hkeep : forall v q, input_text dom = Some v ->
            input_text {| document := render_input q (document dom);
                          effect_deps := effect_deps dom |} = Some v).
  { intros v q. unfold input_text, render_input; simpl.
    by destruct (document dom !! "q") as [[w|]|] eqn:Hq; rewrite ?Hq. }
  split; [exact Hsync|]. split; [intros ->; exact Hsync|]. split; [done|].
  split; [intros v; apply Hkeep|]. split.
  - intros v q Hv Hq. unfold App_render.
    destruct (decide (effect_deps dom = Some q)) as [_|Hne]; [|done].
    exact (Hkeep v q Hv).
  - intros h _. split; intros <-; exact Hsync.
Qed.

Lemma input_resynchronized_witness :
  input_text
    (App_render None
       {| document := {["q" := HTMLInputElement "a"]}; effect_deps := Some (Some "a") |})
  = Some "".
Proof.
  destruct (input_resynchronized
    {| document := {["q" := HTMLInputElement "a"]}; effect_deps := Some (Some "a") |} None)
    as [Hsync _].
  - vm_compute. intros H. discriminate H.
  - simpl. intros H. discriminate H.
  - exact Hsync.
Defined.

(** * Further properties of the route modules *)

(** ** Loaders *)

(** X1. A loader of the contact route or of the edit route that is
    called without a [contactId] parameter (undefined, or empty) throws
    the error of [invariant] before it reaches the store: the store it
    leaves is the one it found, with no operation invoked. *)
Theorem loaders_require_contactId (params : Params) (s : Store) :
  contactId params = None \/ contactId params = Some "" ->
  ContactRoute.loader params s
  = (Rejected (ValidationError "Missing contactId param"), s)
  /\ EditRoute.loader params s
     = (Rejected (ValidationError "Missing contactId param"), s).
Proof.
  intros Hmissing. unfold ContactRoute.loader, EditRoute.loader, await.
  by destruct Hmissing as [-> | ->].
Qed.

Lemma loaders_require_contactId_witness :
  contactId {| contactId := None |} = None
  /\ EditRoute.loader {| contactId := None |} seeded
     = (Rejected (ValidationError "Missing contactId param"), seeded).
Proof.
  split; [reflexivity|].
  exact (proj2 (loaders_require_contactId {| contactId := None |} seeded
                  (or_introl eq_refl))).
Defined.

Lemma contact_loader_found (cid : string) (c : ContactRecord) (s : Store) :
  cid <> "" -> find cid (contacts s) = Some c ->
  ContactRoute.loader {| contactId := Some cid |} s
  = (Fulfilled {| ContactRoute.contact := c |}, invoked (CallGet cid) s).
Proof.
  intros Hne Hc. unfold ContactRoute.loader. past_invariant Hne.
  unfold await, getContact. by rewrite Hc.
Qed.

(** X2. Loaders only read.  The root loader leaves the contacts, the
    clock and the write state of the store as they are and invokes one
    store operation, the listing with the request's [q].  The loaders of
    the contact and edit routes leave them as they are too, and invoke
    at most one operation, the lookup of their [contactId]; for a
    non-empty [contactId] under which a contact is stored they return
    that contact. *)
Theorem loaders_only_read (s : Store) :
  (forall request,
      let s' := snd (Root.loader request s) in
      contacts s' = contacts s /\ clock s' = clock s /\ writable s' = writable s
      /\ calls s' = (calls s ++ [CallList (Js.get "q" (searchParams (url request)))])%list)
  /\ (forall params loader,
        loader ∈ [ContactRoute.loader; EditRoute.loader] ->
        let s' := snd (loader params s) in
        contacts s' = contacts s /\ clock s' = clock s /\ writable s' = writable s
        /\ (calls s' = calls s
            \/ exists cid, contactId params = Some cid /\ calls s' = (calls s ++ [CallGet cid])%list))
  /\ (forall cid c loader,
        loader ∈ [ContactRoute.loader; EditRoute.loader] ->
        cid <> "" -> find cid (contacts s) = Some c ->
        fst (loader {| contactId := Some cid |} s)
        = Fulfilled {| ContactRoute.contact := c |}).
Proof.
  split; [|split].
  - intros request. unfold Root.loader, await, getContacts.
    by destruct (Js.get "q" (searchParams (url request))).
  - intros params loader Hl.
    assert (loader = ContactRoute.loader) as ->.
    { rewrite !elem_of_cons in Hl. destruct Hl as [->|[->|Hl]]; [done..|].
      by apply elem_of_nil in Hl. }
    unfold ContactRoute.loader, await.
    destruct (contactId params) as [[|a v]|]; simpl; [by auto | | by auto].
    unfold getContact.
    destruct (find (String a v) (contacts s)); simpl;
      (split; [done|]; split; [done|]; split; [done|]; right; by eexists).
  - intros cid c loader Hl Hne Hc.
    assert (loader = ContactRoute.loader) as ->.
    { rewrite !elem_of_cons in Hl. destruct Hl as [->|[->|Hl]]; [done..|].
      by apply elem_of_nil in Hl. }
    by rewrite (contact_loader_found cid c s Hne Hc).
Qed.

(** ** Repeated form fields *)

Lemma get_as_map (k : string) (es : Js.Entries) :
  Js.get k es = (list_to_map es : gmap string string) !! k.
Proof.
  induction es as [|[k' v] es IH]; simpl; [done|].
  destruct (decide (k' = k)) as [->|Hne].
  - by rewrite lookup_insert_eq.
  - by rewrite lookup_insert_ne.
Qed.

Lemma fromEntries_as_map (es : Js.Entries) :
  Js.fromEntries es = list_to_map (reverse es).
Proof.
  unfold Js.fromEntries.
  assert (H : forall (acc : gmap string string) l,
             foldl (fun o kv => <[kv.1 := kv.2]> o) acc l
             = foldr (fun kv o => <[kv.1 := kv.2]> o) acc (reverse l)).
  { intros acc l. revert acc. induction l as [|kv l IH]; intros acc; simpl; [done|].
    by rewrite IH, reverse_cons, foldr_app. }
  rewrite H. generalize (reverse es). intros l.
  induction l as [|[k v] l IH]; simpl; [done|]. by rewrite IH.
Qed.

Example repeated_favorite_and_first :
  (Js.get "first" [("first", "Rob"); ("first", "Robert")],
   Js.fromEntries [("first", "Rob"); ("first", "Robert")] !! "first")
  = (Some "Rob", Some "Robert").
Proof. vm_compute. reflexivity. Qed.

(** X3. When a form field is submitted more than once, the edit action
    and the favorite action read different entries: the object built by
    [Object.fromEntries] holds the last value submitted under a name,
    while [formData.get] returns the first.  The two agree when no name
    is repeated.  So the edit action updates each text field with its
    last submitted value. *)
Theorem repeated_field_last_wins (es : Js.Entries) (k : string) :
  Js.fromEntries es !! k = Js.get k (reverse es)
  /\ (forall v rest, es = (rest ++ [(k, v)])%list -> Js.fromEntries es !! k = Some v)
  /\ (forall v rest, es = (k, v) :: rest -> Js.get k es = Some v)
  /\ (NoDup (es.*1) -> Js.fromEntries es !! k = Js.get k es)
  /\ m_first (EditRoute.as_mutation (Js.fromEntries es)) = Js.get "first" (reverse es)
  /\ m_last (EditRoute.as_mutation (Js.fromEntries es)) = Js.get "last" (reverse es)
  /\ m_twitter (EditRoute.as_mutation (Js.fromEntries es)) = Js.get "twitter" (reverse es)
  /\ m_avatar (EditRoute.as_mutation (Js.fromEntries es)) = Js.get "avatar" (reverse es)
  /\ m_notes (EditRoute.as_mutation (Js.fromEntries es)) = Js.get "notes" (reverse es).
Proof.
  assert (Hlast : forall key, Js.fromEntries es !! key = Js.get key (reverse es))
    by (intros key; by rewrite fromEntries_as_map, get_as_map).
  split; [apply Hlast|]. split; [|split; [|split]].
  - intros v rest ->. rewrite Hlast, reverse_app; simpl.
    by destruct (decide (k = k)).
  - intros v rest ->; simpl. by destruct (decide (k = k)).
  - intros Hnodup. rewrite fromEntries_as_map, get_as_map.
    f_equal. apply list_to_map_proper; [|apply reverse_Permutation].
    by rewrite fmap_reverse, reverse_Permutation.
  - unfold m_first, m_last, m_twitter, m_avatar, m_notes.
    by rewrite !text_field_as_mutation, !Hlast.
Qed.

(** ** Saving the edit form *)

(** What the edit action reads from a submission of the edit form: the
    five texts the form holds, and nothing else. *)
Lemma edit_form_updates (edits : gmap string string) (c : ContactRecord) :
  merge c (EditRoute.as_mutation
             (Js.fromEntries (form_entries edits (EditContact {| ContactRoute.contact := c |}))))
  = {| id := id c; createdAt := createdAt c;
       first := default (first c) (edits !! "first");
       last := default (last c) (edits !! "last");
       twitter := default (twitter c) (edits !! "twitter");
       avatar := default (avatar c) (edits !! "avatar");
       notes := default (notes c) (edits !! "notes");
       favorite := favorite c |}.
Proof.
  unfold merge, m_first, m_last, m_twitter, m_avatar, m_notes.
  rewrite !text_field_as_mutation, m_favorite_as_mutation.
  unfold Js.fromEntries, form_entries, EditContact; simpl.
  repeat (rewrite ?lookup_insert_eq, ?lookup_insert_ne, ?lookup_empty by done).
  reflexivity.
Qed.

Example save_blank_twitter :
  fst (await (EditRoute.action {| contactId := Some "0" |}
                {| url := root_url;
                   formData := form_entries {["twitter" := ""]}
                                 (EditContact {| ContactRoute.contact := alice |}) |})
             (fun _ => ContactRoute.loader {| contactId := Some "0" |}) seeded)
  = Fulfilled {| ContactRoute.contact :=
                   {| id := "0"; createdAt := 0; first := "Alice"; last := "Smith";
                      twitter := ""; avatar := ""; notes := "met at the conference";
                      favorite := false |} |}.
Proof. vm_compute. reflexivity. Qed.

(** X4. Saving the edit form of a stored contact (non-empty id, store
    accepting writes) redirects to the contact's page, and the contact
    then loaded holds, in each of its five text fields, the text the
    form control of that name held when submitted: the typed text, or
    the control's default.  Its [id], [createdAt] and [favorite] are
    untouched.  So the edit form shown next holds what was submitted,
    the contact page shows the submitted texts (no twitter link and no
    notes when these were left empty), and saving the form as it was
    mounted gives back the same contact. *)
Theorem edit_save_round_trip (s : Store) (cid : string) (c : ContactRecord)
    (edits : gmap string string) (u : URL) :
  cid <> "" -> find cid (contacts s) = Some c -> writable s = true ->
  let params := {| contactId := Some cid |} in
  let text name old := default old (edits !! name) in
  exists c' s',
    EditRoute.action params
      {| url := u;
         formData := form_entries edits (EditContact {| ContactRoute.contact := c |}) |} s
    = (Fulfilled (redirect ("/contacts/" +:+ cid)), s')
    /\ fst (ContactRoute.loader params s') = Fulfilled {| ContactRoute.contact := c' |}
    /\ fst (EditRoute.loader params s') = Fulfilled {| ContactRoute.contact := c' |}
    /\ c' = {| id := id c; createdAt := createdAt c;
               first := text "first" (first c); last := text "last" (last c);
               twitter := text "twitter" (twitter c); avatar := text "avatar" (avatar c);
               notes := text "notes" (notes c); favorite := favorite c |}
    /\ form_entries ∅ (EditContact {| ContactRoute.contact := c' |})
       = form_entries edits (EditContact {| ContactRoute.contact := c |})
    /\ heading (Contact Idle {| ContactRoute.contact := c' |})
       = (if Js.truthy (text "first" (first c)) || Js.truthy (text "last" (last c))
          then Named (text "first" (first c)) (text "last" (last c)) else NoName)
    /\ (text "twitter" (twitter c) = "" ->
          twitter_link (Contact Idle {| ContactRoute.contact := c' |}) = None)
    /\ (text "notes" (notes c) = "" ->
          notes_text (Contact Idle {| ContactRoute.contact := c' |}) = None)
    /\ displayed (star (Contact Idle {| ContactRoute.contact := c' |})) = favorite c
    /\ (edits = ∅ -> c' = c).
Proof.
  intros Hne Hc Hw params text.
  pose proof (find_Some _ _ _ Hc) as [Hid _].
  pose (m := EditRoute.as_mutation
               (Js.fromEntries
                  (form_entries edits (EditContact {| ContactRoute.contact := c |})))).
  pose (s' := with_contacts
                ((fun x => if decide (id x = cid) then merge x m else x) <$> contacts s)
                (invoked (CallUpdate cid m) s)).
  assert (Hfound : find cid (contacts s') = Some (merge c m)).
  { simpl. rewrite find_updated, Hc; simpl. by destruct (decide (id c = cid)). }
  assert (Hm : merge c m
               = {| id := id c; createdAt := createdAt c;
                    first := text "first" (first c); last := text "last" (last c);
                    twitter := text "twitter" (twitter c);
                    avatar := text "avatar" (avatar c);
                    notes := text "notes" (notes c); favorite := favorite c |})
    by apply edit_form_updates.
  exists (merge c m), s'. split.
  { unfold EditRoute.action, params. past_invariant Hne. cbv zeta.
    change (formData {| url := u; formData := ?fd |}) with fd. fold m.
    by awaited (updateContact_found _ _ _ _ Hc Hw). }
  split; [exact (f_equal fst (contact_loader_found _ _ _ Hne Hfound))|].
  split; [exact (f_equal fst (contact_loader_found _ _ _ Hne Hfound))|].
  rewrite Hm.
  split; [reflexivity|]. split; [reflexivity|]. split; [reflexivity|].
  split; [unfold Contact; simpl; by intros ->|].
  split; [unfold Contact; simpl; by intros ->|].
  split; [reflexivity|].
  intros ->. unfold text. rewrite !lookup_empty; simpl. by destruct c.
Qed.

Lemma edit_save_round_trip_witness :
  exists c' s',
    EditRoute.action {| contactId := Some "1" |}
      {| url := root_url;
         formData := form_entries ∅ (EditContact {| ContactRoute.contact := bob |}) |} seeded
    = (Fulfilled (redirect "/contacts/1"), s')
    /\ fst (ContactRoute.loader {| contactId := Some "1" |} s')
       = Fulfilled {| ContactRoute.contact := c' |}.
Proof.
  destruct (edit_save_round_trip seeded "1" bob ∅ root_url
              ltac:(discriminate) eq_refl eq_refl)
    as (c' & s' & Ha & Hl & _).
  exists c', s'. split; [exact Ha | exact Hl].
Defined.

(** ** Toggling the favorite star twice *)

(** X5. Clicking the star of an idle [Favorite] on a stored contact
    (non-empty id, store accepting writes) flips the stored [favorite]
    flag and changes no other field; clicking the star rendered after
    that restores the contact as it was.  No other contact's lookup
    changes. *)
Theorem toggle_twice_restores (s : Store) (cid : string) (c : ContactRecord) (u1 u2 : URL) :
  cid <> "" -> find cid (contacts s) = Some c -> writable s = true ->
  let params := {| contactId := Some cid |} in
  let toggle shown u :=
    ContactRoute.action params {| url := u; formData := click (Favorite Idle shown) |} in
  exists c1 s1 s2,
    toggle (favorite c) u1 s = (Fulfilled (JsonContact c1), s1)
    /\ find cid (contacts s1) = Some c1
    /\ c1 = {| id := id c; createdAt := createdAt c; first := first c; last := last c;
               twitter := twitter c; avatar := avatar c; notes := notes c;
               favorite := negb (favorite c) |}
    /\ toggle (favorite c1) u2 s1 = (Fulfilled (JsonContact c), s2)
    /\ find cid (contacts s2) = Some c
    /\ (forall other, other <> cid -> find other (contacts s2) = find other (contacts s)).
Proof.
  intros Hne Hc Hw params toggle.
  pose proof (find_Some _ _ _ Hc) as [Hid _].
  assert (Hflag : forall b : bool,
            bool_decide (Js.get "favorite" (click (Favorite Idle b)) = Some "true") = negb b)
    by (by intros [|]).
  assert (Hstep : forall (s0 : Store) (x : ContactRecord) (u : URL),
            find cid (contacts s0) = Some x -> writable s0 = true ->
            toggle (favorite x) u s0
            = (Fulfilled (JsonContact (merge x (favorite_only (negb (favorite x))))),
               with_contacts
                 ((fun y => if decide (id y = cid)
                            then merge y (favorite_only (negb (favorite x))) else y)
                    <$> contacts s0)
                 (invoked (CallUpdate cid (favorite_only (negb (favorite x)))) s0))).
  { intros s0 x u Hx Hw0. unfold toggle, ContactRoute.action, params.
    past_invariant Hne. cbv zeta.
    change (formData {| url := u; formData := ?fd |}) with fd. rewrite Hflag.
    by awaited (updateContact_found _ _ _ _ Hx Hw0). }
  assert (Hfound : forall (s0 : Store) (x : ContactRecord) (b : bool),
            find cid (contacts s0) = Some x ->
            find cid ((fun y => if decide (id y = cid) then merge y (favorite_only b) else y)
                        <$> contacts s0)
            = Some (merge x (favorite_only b))).
  { intros s0 x b Hx. rewrite find_updated, Hx; simpl.
    apply find_Some in Hx as [Hidx _]. by destruct (decide (id x = cid)). }
  pose (c1 := merge c (favorite_only (negb (favorite c)))).
  pose (s1 := with_contacts
                ((fun y => if decide (id y = cid)
                           then merge y (favorite_only (negb (favorite c))) else y)
                   <$> contacts s)
                (invoked (CallUpdate cid (favorite_only (negb (favorite c)))) s)).
  assert (Hc1 : find cid (contacts s1) = Some c1) by exact (Hfound s c _ Hc).
  assert (Hback : merge c1 (favorite_only (negb (favorite c1))) = c)
    by (unfold c1; destruct c as [? ? ? ? ? ? ? [|]]; reflexivity).
  exists c1, s1, (snd (toggle (favorite c1) u2 s1)).
  split; [exact (Hstep s c u1 Hc Hw)|].
  split; [exact Hc1|]. split; [reflexivity|].
  rewrite (Hstep s1 c1 u2 Hc1 Hw), Hback.
  split; [reflexivity|]. split.
  { cbn [snd]. change (contacts (with_contacts ?l ?x)) with l.
    rewrite (Hfound s1 c1 _ Hc1). by rewrite Hback. }
  intros other Hother. cbn [snd]. change (contacts (with_contacts ?l ?x)) with l.
  unfold s1. change (contacts (with_contacts ?l ?x)) with l.
  rewrite !find_updated.
  destruct (find other (contacts s)) as [x|] eqn:Hx; [|done]; simpl.
  apply find_Some in Hx as [Hidx _].
  destruct (decide (id x = cid)); [congruence|]; simpl.
  by destruct (decide (id x = cid)).
Qed.

Lemma toggle_twice_restores_witness :
  exists c1 s1 s2,
    ContactRoute.action {| contactId := Some "1" |}
      {| url := root_url; formData := click (Favorite Idle (favorite bob)) |} seeded
    = (Fulfilled (JsonContact c1), s1)
    /\ ContactRoute.action {| contactId := Some "1" |}
         {| url := root_url; formData := click (Favorite Idle (favorite c1)) |} s1
       = (Fulfilled (JsonContact bob), s2).
Proof.
  destruct (toggle_twice_restores seeded "1" bob root_url root_url
              ltac:(discriminate) eq_refl eq_refl)
    as (c1 & s1 & s2 & H1 & _ & _ & H2 & _).
  exists c1, s1, s2. split; [exact H1 | exact H2].
Defined.

(** ** Search, the back button and the search input *)

Lemma typing_from_no_query (h : History) (text : string) (texts : list string) :
  loaded_q h = None ->
  snd (typing (text :: texts) h)
  = {| back := current h :: back h;
       current := search_url (List.last texts text);
       forward := [] |}.
Proof.
  intros Hq. cbn [typing]. unfold onChange at 1. rewrite Hq; simpl bool_decide.
  unfold submit; simpl opt_replace; cbn iota.
  rewrite (typing_replaces texts (push (search_url text) h) text) by reflexivity.
  destruct texts as [|t rest]; [done|]. by rewrite (last_cons rest t text).
Qed.

(** X6. However many edits of the search input a session made, starting
    from a location without query parameter, one step back returns to
    that location: the current entry and the entries behind it are those
    the search started from, the query parameter is null again, and the
    only entry ahead is the last search, to which one step forward
    returns. *)
Theorem back_undoes_search (h : History) (text : string) (texts : list string) :
  loaded_q h = None ->
  let searched := snd (typing (text :: texts) h) in
  current (go_back searched) = current h
  /\ back (go_back searched) = back h
  /\ loaded_q (go_back searched) = None
  /\ forward (go_back searched) = [search_url (List.last texts text)]
  /\ go_forward (go_back searched) = searched.
Proof.
  intros Hq searched. unfold searched.
  rewrite (typing_from_no_query h text texts Hq).
  unfold go_back, go_forward, loaded_q in *; simpl. by rewrite Hq.
Qed.

Lemma back_undoes_search_witness :
  loaded_q fresh_history = None
  /\ current (go_back (snd (typing ["a"; "ab"; "abc"] fresh_history))) = root_url.
Proof.
  split; [reflexivity|].
  exact (proj1 (back_undoes_search fresh_history "a" ["ab"; "abc"] eq_refl)).
Defined.

Lemma render_after_typing (text w : string) (dom : AppDom) :
  document dom !! "q" = Some (HTMLInputElement w) ->
  input_text (App_render (Some text) (user_types text dom)) = Some text.
Proof.
  intros Hw. unfold App_render, user_types, input_text.
  cbn [document effect_deps]. rewrite Hw.
  unfold render_input. rewrite lookup_insert_eq.
  destruct (decide (effect_deps dom = Some (Some text))) as [_|_].
  - by rewrite lookup_insert_eq.
  - unfold resync. rewrite lookup_insert_eq, lookup_insert_eq.
    by destruct text.
Qed.

Lemma keystroke_one (text : string) (h : History) (dom : AppDom) :
  is_Some (input_text dom) ->
  input_text (snd (keystroke text (h, dom))) = Some text
  /\ loaded_q (fst (keystroke text (h, dom))) = Some text
  /\ effect_deps (snd (keystroke text (h, dom))) = Some (Some text).
Proof.
  intros [v Hv].
  assert (Hq : exists w, document dom !! "q" = Some (HTMLInputElement w)).
  { unfold input_text in Hv. destruct (document dom !! "q") as [[w|]|]; [eauto|done..]. }
  destruct Hq as [w Hw].
  assert (Hnav : exists nav h', onChange (loaded_q h) text h = (nav, h')
                                /\ loaded_q h' = Some text).
  { unfold onChange, submit; simpl.
    destruct (negb (bool_decide (loaded_q h = None))); eauto. }
  destruct Hnav as (nav & h' & Hnav & Hloaded).
  unfold keystroke. rewrite Hnav. cbn [fst snd]. rewrite Hloaded.
  split; [exact (render_after_typing text w dom Hw)|]. by split.
Qed.

Example typing_keeps_input :
  let mounted := App_render None {| document := ∅; effect_deps := None |} in
  let st := foldl (fun st text => keystroke text st) (fresh_history, mounted) ["a"; "ab"; ""] in
  (input_text (snd st), loaded_q (fst st), length (back (fst st))) = (Some "", Some "", 1).
Proof. vm_compute. reflexivity. Qed.

(** X7. One edit of the search input, followed to its end: the user's
    text goes into the mounted input, the handler navigates, and [App]
    renders with the [q] the loader read.  The input then holds the text
    the user typed, which is also the loaded [q]: the resynchronising
    effect never replaces the text of an edit it follows.  The same
    holds at the end of any sequence of edits, for the last text. *)
Theorem keystroke_keeps_typed_text (h : History) (dom : AppDom)
    (texts : list string) (text : string) :
  is_Some (input_text dom) ->
  let st := foldl (fun st t => keystroke t st) (h, dom) (texts ++ [text])%list in
  input_text (snd st) = Some text
  /\ loaded_q (fst st) = Some text
  /\ effect_deps (snd st) = Some (Some text).
Proof.
  intros Hmounted st. unfold st. rewrite foldl_app; cbn [foldl].
  assert (Hkeep : is_Some (input_text
            (snd (foldl (fun st t => keystroke t st) (h, dom) texts)))).
  { clear st. revert h dom Hmounted.
    induction texts as [|t rest IH]; intros h dom Hmounted; cbn [foldl]; [done|].
    destruct (keystroke t (h, dom)) as [h1 dom1] eqn:Hk.
    apply IH. pose proof (keystroke_one t h dom Hmounted) as [H1 _].
    rewrite Hk in H1; simpl in H1. by rewrite H1. }
  destruct (foldl (fun st t => keystroke t st) (h, dom) texts) as [h1 dom1].
  exact (keystroke_one text h1 dom1 Hkeep).
Qed.

Lemma keystroke_keeps_typed_text_witness :
  input_text
    (snd (foldl (fun st t => keystroke t st)
            (fresh_history,
             {| document := {["q" := HTMLInputElement ""]}; effect_deps := Some None |})
            ["a"; "ab"]))
  = Some "ab".
Proof.
  refine (proj1 (keystroke_keeps_typed_text fresh_history
    {| document := {["q" := HTMLInputElement ""]}; effect_deps := Some None |}
    ["a"] "ab" _)).
  vm_compute. eexists. reflexivity.
Defined.

(** ** Pending UI *)

(** X8. The search spinner and the fade of the detail pane are never
    shown together.  The spinner is visible exactly when the search
    input has the class [loading], which is exactly when a navigation is
    pending to a location with a [q] parameter; then the detail pane has
    no class.  The detail pane has the class [loading] exactly when the
    navigation state is [loading] and no such search is pending.  While
    a submission of the search form is being loaded, the spinner shows
    and the pane does not fade. *)
Theorem spinner_excludes_fade (navigation : PendingNavigation) :
  let ui := App_pending navigation in
  (spinner_hidden ui = false <-> input_className ui = "loading")
  /\ (spinner_hidden ui = false <->
        exists location, nav_location navigation = Some location
                         /\ is_Some (Js.get "q" (searchParams location)))
  /\ (spinner_hidden ui = false -> detail_className ui = "")
  /\ (detail_className ui = "loading" <->
        nav_state navigation = NavLoading /\ spinner_hidden ui = true)
  /\ (forall text,
        App_pending (search_pending text)
        = {| input_className := "loading"; spinner_hidden := false;
             detail_className := "" |}).
Proof.
  intros ui. unfold ui, App_pending, searching, has_param; simpl.
  split; [|split; [|split; [|split]]].
  - destruct (nav_location navigation) as [location|]; simpl; [|done].
    by destruct (Js.get "q" (searchParams location)).
  - destruct (nav_location navigation) as [location|]; simpl.
    + destruct (Js.get "q" (searchParams location)) as [v|] eqn:Hq; simpl.
      * split; [intros _; exists location; by rewrite Hq | done].
      * split; [done|]. intros (l & Hl & Hs). simplify_eq.
        rewrite Hq in Hs. by destruct Hs.
    + split; [done|]. by intros (l & Hl & _).
  - destruct (nav_location navigation) as [location|]; simpl; [|done].
    destruct (Js.get "q" (searchParams location)); simpl; [|done].
    by rewrite andb_false_r.
  - destruct (nav_state navigation), (nav_location navigation) as [location|]; simpl;
      try destruct (Js.get "q" (searchParams location)); simpl; split; try done;
      by intros [? ?].
  - done.
Qed.

(** ** Deleting *)

Example declined_delete :
  click_delete (fun _ => false) {| contactId := Some "0" |} seeded = (Fulfilled None, seeded).
Proof. reflexivity. Qed.

Example confirmed_delete :
  fst (await (click_delete (fun _ => true) {| contactId := Some "0" |})
             (fun _ => getContacts None) seeded)
  = Fulfilled [bob].
Proof. reflexivity. Qed.

(** X9. The Delete button deletes nothing without confirmation.  When
    [confirm] answers false, the submission is prevented: no request is
    posted and the store is left exactly as it was, no operation
    invoked.  When it answers true, the form posts to the destroy
    action; for a stored contact (non-empty id, store accepting writes)
    the response is a redirect to the root and the store holds the
    former contacts without those of that id, in their order.  Hence a
    change of the contacts, or any store operation, implies that the
    user confirmed. *)
Theorem delete_needs_confirmation (confirm : string -> bool) (params : Params) (s : Store) :
  let answer := confirm "Please confirm you want to delete this record." in
  (answer = false -> click_delete confirm params s = (Fulfilled None, s))
  /\ (answer = true ->
        snd (click_delete confirm params s) = snd (DestroyRoute.action params s)
        /\ forall cid c,
            contactId params = Some cid -> cid <> "" ->
            find cid (contacts s) = Some c -> writable s = true ->
            fst (click_delete confirm params s) = Fulfilled (Some (redirect "/"))
            /\ contacts (snd (click_delete confirm params s))
               = filter (fun x => id x <> cid) (contacts s)
            /\ find cid (contacts (snd (click_delete confirm params s))) = None)
  /\ (contacts (snd (click_delete confirm params s)) <> contacts s -> answer = true)
  /\ (calls (snd (click_delete confirm params s)) <> calls s -> answer = true).
Proof.
  intros answer.
  assert (Hno : answer = false -> click_delete confirm params s = (Fulfilled None, s)).
  { intros Ha. unfold click_delete, onSubmit. fold answer. by rewrite Ha. }
  split; [exact Hno|]. split; [|split].
  - intros Ha.
    assert (Hyes : click_delete confirm params s
                   = await (DestroyRoute.action params)
                       (fun response => resolve (Some response)) s).
    { unfold click_delete, onSubmit. fold answer. by rewrite Ha. }
    rewrite Hyes. split.
    + unfold await. by destruct (DestroyRoute.action params s) as [[r|e] s1].
    + intros cid c Hp Hne Hc Hw. destruct params as [p]; simpl in Hp; subst p.
      assert (Hact : DestroyRoute.action {| contactId := Some cid |} s
                     = (Fulfilled (redirect "/"),
                        with_contacts (filter (fun x => id x <> cid) (contacts s))
                          (invoked (CallDelete cid) s))).
      { unfold DestroyRoute.action. cbn [contactId]. past_invariant Hne.
        unfold await, deleteContact. by rewrite Hc, Hw. }
      unfold await. rewrite Hact; simpl.
      split; [done|]. split; [done|]. apply find_deleted.
  - intros Hchanged. destruct answer eqn:Ha; [done|].
    rewrite (Hno eq_refl) in Hchanged. by destruct Hchanged.
  - intros Hchanged. destruct answer eqn:Ha; [done|].
    rewrite (Hno eq_refl) in Hchanged. by destruct Hchanged.
Qed.

(** ** Creating, and the sidebar *)

Lemma name_label_NoName (c : ContactRecord) :
  name_label c = NoName <-> first c = "" /\ last c = "".
Proof.
  unfold name_label. destruct (first c) as [|a f], (last c) as [|b l]; simpl;
    split; try done; by intros [? ?].
Qed.

Lemma App_nav_nonempty (cs : list ContactRecord) (q : option string) :
  cs <> [] ->
  App_nav {| Root.contacts := cs; Root.q := q |} = ContactList (sidebar_item <$> cs).
Proof. intros H. unfold App_nav; simpl. by destruct cs. Qed.

Lemma no_match_filter (q : string) (l : list ContactRecord) :
  (forall c, c ∈ l -> matches q c = false) -> filter (fun c => matches q c) l = [].
Proof.
  induction l as [|c l IH]; intros Hno; [done|].
  rewrite filter_cons, (Hno c) by (apply elem_of_cons; by left).
  simpl. apply IH. intros x Hx. apply Hno, elem_of_cons. by right.
Qed.

Example new_on_seeded :
  fst (await Root.action (fun r => resolve r) seeded) = Fulfilled (redirect "/contacts/2/edit").
Proof. vm_compute. reflexivity. Qed.

(** X10. The New button, on a store that accepts writes, appends one
    contact and redirects to that contact's edit page.  The sidebar
    loaded next without a query lists the former contacts unchanged and
    in their order, followed by the new one as a last entry labelled
    "No Name", without star, linking to the new contact.  The edit form
    of the new contact is mounted with five empty texts.  On a store
    that refuses writes the action rejects with the store's error,
    without a redirect and without a new contact. *)
Theorem new_contact_is_listed_unnamed (s : Store) (request : Request) :
  Js.get "q" (searchParams (url request)) = None ->
  (writable s = true ->
     exists c s1 data s2,
       Root.action s = (Fulfilled (redirect ("/contacts/" +:+ id c +:+ "/edit")), s1)
       /\ contacts s1 = (contacts s ++ [c])%list
       /\ Root.loader request s1 = (Fulfilled data, s2)
       /\ App_nav data
          = ContactList
              ((sidebar_item <$> contacts s)
               ++ [{| item_key := id c; item_to := "contacts/" +:+ id c;
                      item_label := NoName; item_star := false |}])%list
       /\ form_entries ∅ (EditContact {| ContactRoute.contact := c |})
          = [("first", ""); ("last", ""); ("twitter", ""); ("avatar", ""); ("notes", "")])
  /\ (writable s = false ->
        exists s1, Root.action s = (Rejected StoreError, s1)
                   /\ contacts s1 = contacts s).
Proof.
  intros Hq. split.
  - intros Hw. eexists (empty_contact (clock s)), _, _, _.
    unfold Root.action, await, createEmptyContact. rewrite Hw.
    split; [reflexivity|]. split; [reflexivity|].
    unfold Root.loader, await, getContacts. rewrite Hq. cbn [contacts invoked].
    split; [reflexivity|]. split; [|reflexivity].
    rewrite App_nav_nonempty by (by destruct (contacts s)).
    by rewrite fmap_app.
  - intros Hw. eexists. unfold Root.action, await, createEmptyContact. by rewrite Hw.
Qed.

Lemma new_contact_is_listed_unnamed_witness :
  exists c s1,
    Root.action seeded = (Fulfilled (redirect ("/contacts/" +:+ id c +:+ "/edit")), s1)
    /\ contacts s1 = [alice; bob; c].
Proof.
  destruct (proj1 (new_contact_is_listed_unnamed seeded
                     {| url := root_url; formData := [] |} eq_refl) eq_refl)
    as (c & s1 & data & s2 & Ha & Hc & _).
  exists c, s1. split; [exact Ha | exact Hc].
Defined.

(** X11. The sidebar mirrors what the root loader returned.  It shows
    "No contacts" exactly when the loader returned no contact, which is
    the case for a search that no stored contact matches; otherwise it
    shows one entry per returned contact, in the loader's order, keyed
    by the contact's id and linking to [contacts/<id>], starred exactly
    when the contact is a favorite and labelled "No Name" exactly when
    its first and last names are both empty. *)
Theorem sidebar_mirrors_loader (s : Store) (request : Request) :
  exists data s',
    Root.loader request s = (Fulfilled data, s')
    /\ (App_nav data = NoContacts <-> Root.contacts data = [])
    /\ (forall q, Js.get "q" (searchParams (url request)) = Some q ->
          (forall c, c ∈ contacts s -> matches q c = false) -> App_nav data = NoContacts)
    /\ (forall items, App_nav data = ContactList items ->
          length items = length (Root.contacts data)
          /\ forall i c, Root.contacts data !! i = Some c ->
               exists item,
                 items !! i = Some item
                 /\ item_key item = id c
                 /\ item_to item = "contacts/" +:+ id c
                 /\ item_star item = favorite c
                 /\ (item_label item = NoName <-> first c = "" /\ last c = "")
                 /\ (item_label item <> NoName ->
                       item_label item = Named (first c) (last c))).
Proof.
  destruct (Root.loader request s) as [r s'] eqn:Hl.
  assert (Hdata : exists cs, r = Fulfilled {| Root.contacts := cs;
              Root.q := Js.get "q" (searchParams (url request)) |}
            /\ forall q, Js.get "q" (searchParams (url request)) = Some q ->
                 cs = filter (fun c => matches q c) (contacts s)).
  { unfold Root.loader, await, getContacts, resolve in Hl.
    destruct (Js.get "q" (searchParams (url request))) as [q|]; simplify_eq;
      eexists; (split; [reflexivity|]); intros q' Hq'; by simplify_eq. }
  destruct Hdata as (cs & -> & Hcs).
  eexists _, _. split; [reflexivity|].
  assert (Hnone : App_nav {| Root.contacts := cs;
                     Root.q := Js.get "q" (searchParams (url request)) |} = NoContacts
                  <-> cs = []) by (unfold App_nav; simpl; by destruct cs).
  split; [exact Hnone|]. split.
  - intros q Hq Hno. apply Hnone. rewrite (Hcs q Hq). by apply no_match_filter.
  - intros items Hitems. simpl.
    assert (items = sidebar_item <$> cs) as ->.
    { unfold App_nav in Hitems; cbn [Root.contacts] in Hitems.
      destruct cs; cbn [length] in Hitems; [discriminate Hitems|].
      by injection Hitems. }
    split; [by rewrite length_fmap|].
    intros i c Hi. exists (sidebar_item c).
    rewrite list_lookup_fmap, Hi. split; [done|].
    split; [done|]. split; [done|]. split; [done|].
    split; [apply name_label_NoName|].
    simpl. unfold name_label. by destruct (Js.truthy (first c) || Js.truthy (last c)).
Qed.
